(** * QShield: the layered cipher, the file codec and the batch coordinator

    A shallow embedding of [quantum_shield.py] (class [QuantumShield]) and of
    the batch script [encrypt_and_commit_main_files.py], with the properties
    the specification states about them.

    Python [bytes] and [bytearray] values are [list byte]; Python [str]
    values (passphrases, markers, salts, paths) are [string], read as their
    UTF-8 encoding.  The working tree is a finite map from paths to file
    contents. *)

From Stdlib Require Import Strings.Byte Strings.Ascii Strings.String NArith Lia.
From stdpp Require Import base option list gmap strings.

Local Open Scope nat_scope.
Local Open Scope string_scope.
Local Open Scope list_scope.

(** ** Bytes *)

#[global] Instance byte_eq_dec : EqDecision byte := Byte.byte_eq_dec.
#[global] Instance byte_inhabited : Inhabited byte := populate x00.

(** An integer in [range(256)] stored into a [bytearray] slot. *)
Definition byte_of_N (n : N) : byte :=
  match Byte.of_N (n mod 256)%N with
  | Some b => b
  | None => x00
  end.

(** [a ^ b] on two byte values. *)
Definition bxor (a b : byte) : byte :=
  byte_of_N (N.lxor (Byte.to_N a) (Byte.to_N b)).

(** ** hashlib

    The three digests come from Python's [hashlib]; the development is
    parametric in them.  The only fact used is that a SHA-512 digest is 64
    bytes long, so that [key_length] below is never zero. *)

Class Hashlib := {
  sha3_512 : list byte → list byte;
  blake2b_64 : list byte → list byte;
  sha512 : list byte → list byte;
  sha512_digest_size : ∀ m, length (sha512 m) = 64
}.

(** ** Configuration ([load_or_create_config]) *)

Record Config := {
  encryption_marker : string;
  exclude_patterns : list string;
  delete_original_after_encrypt : bool;
  dry_run : bool
}.

Definition default_config : Config := {|
  encryption_marker := "ARTIFACT_SHIELD_ENCRYPTED";
  exclude_patterns := [".shield"; "backups"; "scripts/shield"; "node_modules"; ".git"];
  delete_original_after_encrypt := false;
  dry_run := false
|}.

(** [s.encode('utf-8')] *)
Definition encode (s : string) : list byte := list_byte_of_string s.

(** ** Strict UTF-8 decoding ([bytes.decode('utf-8')])

    [None] stands for [UnicodeDecodeError].  Overlong forms, surrogates and
    code points above U+10FFFF are rejected, as CPython does. *)

Definition in_range (lo hi : N) (b : byte) : bool :=
  ((lo <=? Byte.to_N b) && (Byte.to_N b <=? hi))%N.

Definition is_cont (b : byte) : bool := in_range 128 191 b.

Fixpoint utf8_valid (l : list byte) : bool :=
  match l with
  | [] => true
  | b0 :: l1 =>
    if in_range 0 127 b0 then utf8_valid l1
    else if in_range 194 223 b0 then
      match l1 with
      | b1 :: l2 => is_cont b1 && utf8_valid l2
      | _ => false
      end
    else if in_range 224 239 b0 then
      match l1 with
      | b1 :: b2 :: l3 =>
        (if in_range 224 224 b0 then in_range 160 191 b1
         else if in_range 237 237 b0 then in_range 128 159 b1
         else is_cont b1)
        && is_cont b2 && utf8_valid l3
      | _ => false
      end
    else if in_range 240 244 b0 then
      match l1 with
      | b1 :: b2 :: b3 :: l4 =>
        (if in_range 240 240 b0 then in_range 144 191 b1
         else if in_range 244 244 b0 then in_range 128 143 b1
         else is_cont b1)
        && is_cont b2 && is_cont b3 && utf8_valid l4
      | _ => false
      end
    else false
  end.

Definition decode (l : list byte) : option string :=
  if utf8_valid l then Some (string_of_list_byte l) else None.

(** ** [secrets.token_hex]

    [token_hex rnd] is the lowercase hexadecimal text of the random bytes
    [rnd]; [encrypt_data] draws 32 of them. *)

Definition hex_digit (n : N) : byte :=
  if (n <? 10)%N then byte_of_N (48 + n) else byte_of_N (87 + n).

Definition hexlify (rnd : list byte) : list byte :=
  b ← rnd; [hex_digit (Byte.to_N b / 16); hex_digit (Byte.to_N b mod 16)].

Definition token_hex (rnd : list byte) : string :=
  string_of_list_byte (hexlify rnd).

Definition is_hex_digit (b : byte) : bool :=
  in_range 48 57 b || in_range 97 102 b.

(** ** Key derivation *)

Section Cipher.
Context `{Hashlib}.

Definition derive_encryption_key (user_passphrase file_salt : string) : list byte :=
  let combined := encode (user_passphrase +:+ "::" +:+ file_salt) in
  let round1 := sha3_512 combined in
  let round2 := blake2b_64 round1 in
  let round3 := sha512 round2 in
  round3.

(** ** The three passes

    Each pass is the [for] loop of the source: a left fold over the index
    range that updates one slot of the buffer per iteration. *)

(** [buf[i] ^= k] *)
Definition xor_at (i : nat) (k : byte) (buf : list byte) : list byte :=
  alter (λ b, bxor b k) i buf.

(** Layer 1: [for i in range(len(buf)): buf[i] ^= key[i % key_length]] *)
Definition layer1 (key buf : list byte) : list byte :=
  let key_length := length key in
  foldl (λ acc i, xor_at i (key !!! (i mod key_length)) acc)
        buf (seq 0 (length buf)).

(** Layer 2: [for i in range(len(buf) - 1, -1, -1):
                 buf[i] ^= key[(len(buf) - i - 1) % key_length]] *)
Definition layer2 (key buf : list byte) : list byte :=
  let key_length := length key in
  foldl (λ acc i, xor_at i (key !!! ((length acc - i - 1) mod key_length)) acc)
        buf (rev (seq 0 (length buf))).

(** Layer 3: [for i in range(len(buf)): buf[i] ^= (i + 1) % 256] *)
Definition layer3 (buf : list byte) : list byte :=
  foldl (λ acc i, xor_at i (byte_of_N (N.of_nat ((i + 1) mod 256))) acc)
        buf (seq 0 (length buf)).

(** ** Package framing *)

Definition colon : byte := x3a.
Definition sep : list byte := [colon; colon].
Definition version : list byte := encode "v1.0".

Definition encrypt_data (cfg : Config) (plaintext_bytes : list byte)
    (user_key : string) (rnd : list byte) : list byte :=
  let file_salt := token_hex rnd in
  let encryption_key := derive_encryption_key user_key file_salt in
  let encrypted := layer3 (layer2 encryption_key (layer1 encryption_key plaintext_bytes)) in
  let marker := encode (encryption_marker cfg) in
  let salt_bytes := encode file_salt in
  marker ++ sep ++ version ++ sep ++ salt_bytes ++ sep ++ encrypted.

(** The first occurrence of [b'::'] in [l]: the bytes before it and the
    bytes after it. *)
Fixpoint find_sep (l : list byte) : option (list byte * list byte) :=
  match l with
  | [] => None
  | a :: l' =>
    match l' with
    | b :: rest =>
      if decide (a = colon ∧ b = colon) then Some ([], rest)
      else match find_sep l' with
           | Some (pre, post) => Some (a :: pre, post)
           | None => None
           end
    | [] => None
    end
  end.

(** [l.split(b'::', maxsplit)] *)
Fixpoint split (maxsplit : nat) (l : list byte) : list (list byte) :=
  match maxsplit with
  | 0 => [l]
  | S n =>
    match find_sep l with
    | Some (pre, post) => pre :: split n post
    | None => [l]
    end
  end.

(** [None] is Python's [None]; every exception raised in the body is caught
    and turned into [None] as well. *)
Definition decrypt_data (cfg : Config) (encrypted_package : list byte)
    (user_key : string) : option (list byte) :=
  match split 3 encrypted_package with
  | [marker; _version; salt_bytes; encrypted] =>
    match decode marker with
    | None => None
    | Some marker_text =>
      if decide (marker_text ≠ encryption_marker cfg) then None
      else
        match decode salt_bytes with
        | None => None
        | Some file_salt =>
          let encryption_key := derive_encryption_key user_key file_salt in
          Some (layer1 encryption_key (layer2 encryption_key (layer3 encrypted)))
        end
    end
  | _ => None
  end.

End Cipher.

(** ** Substring tests ([in], [endswith]) *)

Fixpoint startswith (prefix l : list byte) : bool :=
  match prefix, l with
  | [], _ => true
  | a :: prefix', b :: l' => bool_decide (a = b) && startswith prefix' l'
  | _ :: _, [] => false
  end.

(** [needle in hay] *)
Fixpoint contains (needle hay : list byte) : bool :=
  startswith needle hay ||
  match hay with
  | [] => false
  | _ :: hay' => contains needle hay'
  end.

Definition endswith (suffix l : list byte) : bool :=
  startswith (rev suffix) (rev l).

Definition str_in (pattern s : string) : bool := contains (encode pattern) (encode s).
Definition str_endswith (suffix s : string) : bool := endswith (encode suffix) (encode s).

(** ** Paths ([pathlib.Path], as their text) *)

Fixpoint has_slash (s : string) : bool :=
  match s with
  | EmptyString => false
  | String c s' => bool_decide (c = "/"%char) || has_slash s'
  end.

(** [p.name]: the final component. *)
Fixpoint name (s : string) : string :=
  match s with
  | EmptyString => EmptyString
  | String c s' => if has_slash s then name s' else s
  end.

(** [a / b] for a relative [b]. *)
Definition joinpath (a b : string) : string := a +:+ "/" +:+ b.

Fixpoint drop_str (n : nat) (s : string) : string :=
  match n, s with
  | 0, _ => s
  | S n', String _ s' => drop_str n' s'
  | S _, EmptyString => EmptyString
  end.

(** [full.relative_to(root)] for a [full] that was built as [root / p]. *)
Definition relative_to (root full : string) : string :=
  drop_str (String.length root + 1) full.

(** [file_path.parent / (file_path.name + '.enc')], which is also
    [full.with_suffix(full.suffix + '.enc')]: the text with [.enc] appended. *)
Definition enc_of (file_path : string) : string := file_path +:+ ".enc".

(** [file_path.parent / file_path.stem] for a path whose text ends in
    [.enc]: the last suffix is dropped, except that a name that is exactly
    [.enc] has no suffix and is its own stem. *)
Definition stem_path (file_path : string) : string :=
  if decide (name file_path = ".enc") then file_path
  else String.substring 0 (String.length file_path - 4) file_path.

(** ** The file codec

    A file system is a finite map from path text to file contents.  Opening
    a missing file raises, and the codec's [try]/[except] turns that into
    [False].  The audit log lives outside the tree and its failures are
    swallowed; it is not part of the state, and neither are the messages the
    codec prints. *)

Section Codec.
Context `{Hashlib}.

Definition is_encrypted (cfg : Config) (fs : gmap string (list byte))
    (file_path : string) : bool :=
  match fs !! file_path with
  | Some content =>
    let header := take 100 content in
    contains (encode (encryption_marker cfg)) header
  | None => false
  end.

Definition should_exclude (cfg : Config) (file_path : string) : bool :=
  existsb (λ pattern, str_in pattern file_path) (exclude_patterns cfg)
  || str_endswith "quantum_shield.py" file_path.

(** [rnd] is what [secrets.token_hex] draws if the call gets as far as
    [encrypt_data]. *)
Definition encrypt_file (cfg : Config) (fs : gmap string (list byte))
    (file_path user_key : string) (rnd : list byte)
    : bool * gmap string (list byte) :=
  if should_exclude cfg file_path then (false, fs)
  else if is_encrypted cfg fs file_path then (true, fs)
  else
    match fs !! file_path with
    | None => (false, fs)
    | Some plaintext =>
      let encrypted := encrypt_data cfg plaintext user_key rnd in
      let encrypted_path := enc_of file_path in
      let fs1 := <[encrypted_path := encrypted]> fs in
      let fs2 :=
        if delete_original_after_encrypt cfg && negb (dry_run cfg)
        then delete file_path fs1 else fs1 in
      (true, fs2)
    end.

Definition decrypt_file (cfg : Config) (fs : gmap string (list byte))
    (file_path user_key : string) : bool * gmap string (list byte) :=
  if negb (str_endswith ".enc" file_path) then (false, fs)
  else
    match fs !! file_path with
    | None => (false, fs)
    | Some encrypted =>
      match decrypt_data cfg encrypted user_key with
      | None => (false, fs)
      | Some plaintext =>
        let original_path := stem_path file_path in
        (true, delete file_path (<[original_path := plaintext]> fs))
      end
    end.

End Codec.

(** ** The batch script ([encrypt_and_commit_main_files.py])

    The state the script acts on: the working tree, the temporary directory
    that keeps the original copies ([tmpdir], keyed by the file name below
    it), git's staging area and history, and the lines printed.  Backup
    creation, archive extraction and git are collaborators, modelled on
    their success path: [git add] and [git rm -f] stage a change for the
    path, [git reset] clears the staging area, [git commit] records the
    staged paths. *)

Record ManifestEntry := {
  entry_path : string;
  entry_sensitive : bool
}.

Inductive Line :=
| PassphraseRequired
| CreatingBackup
| NoBackupFound
| BackupCreated
| FilesToEncrypt (n : nat)
| NothingToDo
| MissingFileSkipping (full : string)
| Encrypting (full : string)
| EncryptionFailedFor (full : string)
| EncryptedFileMissingFor (full : string)
| FailureDuringEncryption
| CommittedAndPushed
| OriginalNotInBackup (full : string)
| DecryptionFailedFor (enc_path : string)
| Verified (full : string)
| VerificationMismatchFor (full : string)
| RestoredFileNotFoundFor (full : string)
| VerificationFailedAfterPush
| VerificationComplete
| Done.

(** How the process ends: [raise SystemExit(code)] or falling off the end
    (status 0), or an exception nobody catches (a traceback, status 1). *)
Inductive Exit :=
| ExitStatus (code : nat)
| Traceback (exc : string).


Record World := {
  worktree : gmap string (list byte);
  tmpdir : gmap string (list byte);
  staged : gset string;
  commits : list (gset string);
  pushes : nat;
  stdout : list Line
}.

Definition set_worktree (f : gmap string (list byte) → gmap string (list byte))
    (w : World) : World :=
  {| worktree := f (worktree w); tmpdir := tmpdir w; staged := staged w;
     commits := commits w; pushes := pushes w; stdout := stdout w |}.

Definition set_tmpdir (f : gmap string (list byte) → gmap string (list byte))
    (w : World) : World :=
  {| worktree := worktree w; tmpdir := f (tmpdir w); staged := staged w;
     commits := commits w; pushes := pushes w; stdout := stdout w |}.

Definition set_staged (f : gset string → gset string) (w : World) : World :=
  {| worktree := worktree w; tmpdir := tmpdir w; staged := f (staged w);
     commits := commits w; pushes := pushes w; stdout := stdout w |}.

Definition print (l : Line) (w : World) : World :=
  {| worktree := worktree w; tmpdir := tmpdir w; staged := staged w;
     commits := commits w; pushes := pushes w; stdout := stdout w ++ [l] |}.

(** [git add path] *)
Definition git_add (path : string) (w : World) : World :=
  set_staged (λ s, {[path]} ∪ s) w.

(** [git rm -f path]: removes the file and stages the removal. *)
Definition git_rm (path : string) (w : World) : World :=
  set_staged (λ s, {[path]} ∪ s) (set_worktree (delete path) w).

(** [git reset] *)
Definition git_reset (w : World) : World := set_staged (λ _, ∅) w.

(** [git commit -m ...] *)
Definition git_commit (w : World) : World :=
  {| worktree := worktree w; tmpdir := tmpdir w; staged := ∅;
     commits := staged w :: commits w; pushes := pushes w; stdout := stdout w |}.

(** [git push origin main] *)
Definition git_push (w : World) : World :=
  {| worktree := worktree w; tmpdir := tmpdir w; staged := staged w;
     commits := commits w; pushes := S (pushes w); stdout := stdout w |}.

(** The [finally] block: [shutil.rmtree(tmpdir, ignore_errors=True)]. *)
Definition cleanup (w : World) : World := set_tmpdir (λ _, ∅) w.

(** How a loop of the script ends: it runs to its end or to a [break] with
    the [failed] flag as given, or an exception leaves it. *)
Inductive LoopEnd :=
| Completed (failed : bool)
| Raised (exc : string).

Section Batch.
Context `{Hashlib}.

(** The repository root, and the [n]-th draw of 32 random bytes. *)
Variable ROOT : string.
Variable token_bytes : nat → list byte.

(** [shield.config] after the script's two overrides. *)
Definition batch_config (cfg : Config) : Config :=
  {| encryption_marker := encryption_marker cfg;
     exclude_patterns := exclude_patterns cfg;
     delete_original_after_encrypt := false;
     dry_run := false |}.

(** The encryption loop.  [orig_copies] is the list of [(full, tmp)] pairs
    appended so far; the result carries the [failed] flag. *)
Fixpoint encrypt_loop (cfg : Config) (passphrase : string) (sensitive : list string)
    (orig_copies : list (string * string)) (w : World)
    : World * list (string * string) * bool :=
  match sensitive with
  | [] => (w, orig_copies, false)
  | p :: rest =>
    let full := joinpath ROOT p in
    match worktree w !! full with
    | None =>
      encrypt_loop cfg passphrase rest orig_copies (print (MissingFileSkipping full) w)
    | Some original =>
      let tmp := name p in
      let w := set_tmpdir (<[tmp := original]>) w in
      let rnd := token_bytes (length orig_copies) in
      let orig_copies := orig_copies ++ [(full, tmp)] in
      let w := print (Encrypting full) w in
      let '(ok, fs) := encrypt_file cfg (worktree w) full passphrase rnd in
      let w := set_worktree (λ _, fs) w in
      if negb ok then (print (EncryptionFailedFor full) w, orig_copies, true)
      else
        let enc_path := enc_of full in
        match worktree w !! enc_path with
        | None => (print (EncryptedFileMissingFor full) w, orig_copies, true)
        | Some _ =>
          let w := git_add enc_path w in
          let w := git_rm full w in
          encrypt_loop cfg passphrase rest orig_copies w
        end
    end
  end.

(** The restore loop of the rollback branch. *)
Definition restore_originals (orig_copies : list (string * string)) (w : World) : World :=
  foldl (λ w '(full, tmp),
           match worktree w !! full, tmpdir w !! tmp with
           | None, Some original => set_worktree (<[full := original]>) w
           | _, _ => w
           end) w orig_copies.

(** The verification loop over [orig_copies]; [backup] is the extracted
    archive, keyed by the path relative to the root. *)
Fixpoint verify_loop (cfg : Config) (passphrase : string)
    (backup : gmap string (list byte)) (orig_copies : list (string * string))
    (w : World) : World * LoopEnd :=
  match orig_copies with
  | [] => (w, Completed false)
  | (full, tmp) :: rest =>
    let rel := relative_to ROOT full in
    match backup !! rel with
    | None =>
      verify_loop cfg passphrase backup rest (print (OriginalNotInBackup full) w)
    | Some orig_in_backup =>
      let enc_path := enc_of full in
      let test_enc := enc_path +:+ ".tmp" in
      match worktree w !! enc_path with
      | None => (w, Raised "FileNotFoundError")
      | Some artifact =>
        let w := set_worktree (<[test_enc := artifact]>) w in
        let '(ok, fs) := decrypt_file cfg (worktree w) test_enc passphrase in
        let w := set_worktree (λ _, fs) w in
        if negb ok then (print (DecryptionFailedFor enc_path) w, Completed true)
        else
          match worktree w !! full with
          | Some restored =>
            if decide (restored = orig_in_backup) then
              let w := print (Verified full) w in
              match tmpdir w !! tmp with
              | None => (w, Raised "FileNotFoundError")
              | Some original =>
                verify_loop cfg passphrase backup rest
                  (set_worktree (<[full := original]>) w)
              end
            else (print (VerificationMismatchFor full) w, Completed true)
          | None => (print (RestoredFileNotFoundFor full) w, Completed true)
          end
      end
    end
  end.

(** The whole script.  [argv1] is the command-line passphrase, [env] the
    value of [SHIELD_PASSPHRASE], [backups] the archives found after the
    backup was created (newest first), [shield_config] the configuration
    [QuantumShield()] loads. *)
Definition main (shield_config : Config) (argv1 env : option string)
    (backups : list (gmap string (list byte))) (manifest : list ManifestEntry)
    (w : World) : Exit * World :=
  let passphrase := match argv1 with Some a => Some a | None => env end in
  match passphrase with
  | None | Some EmptyString => (ExitStatus 1, print PassphraseRequired w)
  | Some passphrase =>
    let w := print CreatingBackup w in
    match backups with
    | [] => (ExitStatus 1, print NoBackupFound w)
    | backup_zip :: _ =>
      let w := print BackupCreated w in
      let sensitive := entry_path <$> filter (λ it, entry_sensitive it = true) manifest in
      let w := print (FilesToEncrypt (length sensitive)) w in
      match sensitive with
      | [] => (ExitStatus 0, print NothingToDo w)
      | _ :: _ =>
        let cfg := batch_config shield_config in
        (* tmpdir = Path(tempfile.mkdtemp(prefix='shield-')): fresh and empty *)
        let w := set_tmpdir (λ _, ∅) w in
        let '(w, orig_copies, failed) := encrypt_loop cfg passphrase sensitive [] w in
        if failed then
          let w := print FailureDuringEncryption w in
          let w := git_reset w in
          let w := restore_originals orig_copies w in
          (ExitStatus 1, cleanup w)
        else
          let w := git_commit w in
          let w := git_push w in
          let w := print CommittedAndPushed w in
          match verify_loop cfg passphrase backup_zip orig_copies w with
          | (w, Raised exc) => (Traceback exc, cleanup w)
          | (w, Completed true) =>
            (ExitStatus 1, cleanup (print VerificationFailedAfterPush w))
          | (w, Completed false) =>
            (ExitStatus 0, print Done (cleanup (print VerificationComplete w)))
          end
      end
    end
  end.

End Batch.

(** ** A stand-in digest suite

    The general statements below hold for every digest suite; this one only
    serves to run the definitions on concrete inputs. *)

Definition stand_in_digest (m : list byte) : list byte :=
  take 64 (m ++ replicate 64 x00).

Definition stand_in_hashlib : Hashlib.
Proof.
  refine {| sha3_512 := λ m, stand_in_digest (reverse m);
            blake2b_64 := λ m, stand_in_digest (x01 :: m);
            sha512 := stand_in_digest |}.
  intros m. unfold stand_in_digest.
  rewrite length_take, length_app, length_replicate. lia.
Defined.

(** ** Vocabulary of the statements *)

(** The configured marker is text, and it does not run into the separator
    that follows it in a package (it holds no [::] and does not end in a
    colon).  The default marker is such a marker. *)
Definition marker_well_formed (cfg : Config) : Prop :=
  utf8_valid (encode (encryption_marker cfg)) = true ∧
  find_sep (encode (encryption_marker cfg) ++ [colon]) = None.

(** What layers 1 and 2 together XOR into byte [i] of an [n]-byte buffer. *)
Definition keystream (key : list byte) (n i : nat) : byte :=
  bxor (key !!! (i mod length key)) (key !!! ((n - i - 1) mod length key)).

(** A pass whose key byte may depend on the current buffer length and on the
    index; the three layers are its instances with the key bytes below. *)
Definition pass (g : nat → nat → byte) (idx : list nat) (buf : list byte) : list byte :=
  foldl (λ acc i, xor_at i (g (length acc) i) acc) buf idx.

Definition key1 (key : list byte) (n i : nat) : byte := key !!! (i mod length key).
Definition key2 (key : list byte) (n i : nat) : byte := key !!! ((n - i - 1) mod length key).
Definition key3 (n i : nat) : byte := byte_of_N (N.of_nat ((i + 1) mod 256)).

(** The index list visits every slot below [n], each once. *)
Definition covers (idx : list nat) (n : nat) : Prop :=
  NoDup idx ∧ ∀ j, (j < n)%nat → j ∈ idx.


(** The lines that report a failed verification of an entry. *)
Definition verification_failure (l : Line) : bool :=
  match l with
  | DecryptionFailedFor _ | VerificationMismatchFor _ | RestoredFileNotFoundFor _ => true
  | _ => false
  end.

(** The safety copy the restore loop would write to path [q]: the first
    pair of [orig_copies] for [q] whose copy exists in [tmpdir]. *)
Fixpoint first_copy (orig_copies : list (string * string))
    (tmpd : gmap string (list byte)) (q : string) : option (list byte) :=
  match orig_copies with
  | [] => None
  | (full, tmp) :: rest =>
    if decide (full = q) then
      match tmpd !! tmp with
      | Some original => Some original
      | None => first_copy rest tmpd q
      end
    else first_copy rest tmpd q
  end.

(** The state of the encryption loop after the entries [done] were
    processed without failure, seen from the initial working tree [fs0]:
    every pair of [orig_copies] belongs to a processed entry whose original
    the temporary directory holds; the plaintext of every processed entry is
    gone from the tree; every path that is neither the plaintext nor the
    artifact of a processed entry is untouched. *)
Definition loop_invariant (ROOT : string) (fs0 : gmap string (list byte))
    (done : list string) (w : World) (orig_copies : list (string * string)) : Prop :=
  (∀ full tmp, (full, tmp) ∈ orig_copies →
     ∃ p, p ∈ done ∧ full = joinpath ROOT p ∧ tmp = name p ∧
          is_Some (fs0 !! full) ∧ tmpdir w !! tmp = fs0 !! full) ∧
  (∀ p, p ∈ done →
     worktree w !! joinpath ROOT p = None ∧
     (is_Some (fs0 !! joinpath ROOT p) → (joinpath ROOT p, name p) ∈ orig_copies)) ∧
  (∀ q, (∀ p, p ∈ done → q ≠ joinpath ROOT p ∧ q ≠ enc_of (joinpath ROOT p)) →
     worktree w !! q = fs0 !! q).

(** No entry's path is the artifact path of an entry. *)
Definition alias_free (ROOT : string) (sensitive : list string) : Prop :=
  ∀ p q, p ∈ sensitive → q ∈ sensitive → joinpath ROOT p ≠ enc_of (joinpath ROOT q).

(** A configuration whose marker holds the field separator. *)
Definition separator_marker_config : Config :=
  {| encryption_marker := "SHIELD::V2";
     exclude_patterns := exclude_patterns default_config;
     delete_original_after_encrypt := false;
     dry_run := false |}.

(** ** Concrete runs

    A repository at [/repo], a source of random bytes, and the worlds and
    manifests of the scenarios the statements below are evaluated on. *)

Definition repo : string := "/repo".

Definition sample_token_bytes (n : nat) : list byte :=
  replicate 32 (byte_of_N (N.of_nat (42 + n))).

Definition world_of (files : gmap string (list byte)) : World :=
  {| worktree := files; tmpdir := ∅; staged := ∅; commits := []; pushes := 0;
     stdout := [] |}.

Definition sample_passphrase : string := "correct-horse-battery-staple12".

(** Scenario A of the specification. *)
Definition scenario_A_manifest : list ManifestEntry :=
  [ {| entry_path := "secrets/a.txt"; entry_sensitive := true |} ].

Definition scenario_A_world : World :=
  world_of {[ "/repo/secrets/a.txt" := encode "hello world" ]}.

Definition scenario_A_backup : gmap string (list byte) :=
  {[ "secrets/a.txt" := encode "hello world" ]}.

(** Two sensitive files with the same file name in different directories,
    followed by an entry under an excluded directory. *)
Definition collision_manifest : list ManifestEntry :=
  [ {| entry_path := "alice/key.pem"; entry_sensitive := true |};
    {| entry_path := "bob/key.pem"; entry_sensitive := true |};
    {| entry_path := "node_modules/token.txt"; entry_sensitive := true |} ].

Definition collision_world : World :=
  world_of {[ "/repo/alice/key.pem" := encode "ALICE PRIVATE KEY";
              "/repo/bob/key.pem" := encode "BOB PRIVATE KEY";
              "/repo/node_modules/token.txt" := encode "token" ]}.

Definition collision_backup : gmap string (list byte) :=
  {[ "alice/key.pem" := encode "ALICE PRIVATE KEY";
     "bob/key.pem" := encode "BOB PRIVATE KEY";
     "node_modules/token.txt" := encode "token" ]}.

(** Scenario A after the encryption loop, the commit and the push. *)
Definition scenario_A_committed : World :=
  git_push (git_commit
    (encrypt_loop (H := stand_in_hashlib) repo sample_token_bytes
       (batch_config default_config) sample_passphrase ["secrets/a.txt"] []
       scenario_A_world).1.1).


(** ** Vocabulary of the further properties *)

(** Everything of a package before its ciphertext field, for the salt text
    [salt_bytes] and the version text [v]. *)
Definition package_header (cfg : Config) (v salt_bytes : list byte) : list byte :=
  encode (encryption_marker cfg) ++ sep ++ v ++ sep ++ salt_bytes ++ sep.

(** The ciphertext field [encrypt_data] computes: the three passes over the
    plaintext with the key derived from the passphrase and the drawn salt. *)
Definition ciphertext_of `{Hashlib} (plaintext_bytes : list byte) (user_key : string)
    (rnd : list byte) : list byte :=
  let encryption_key := derive_encryption_key user_key (token_hex rnd) in
  layer3 (layer2 encryption_key (layer1 encryption_key plaintext_bytes)).

(** [(i + 1) % 256], the byte layer 3 XORs into slot [i]. *)
Definition position_factor (i : nat) : byte := byte_of_N (N.of_nat ((i + 1) mod 256)).

(** ** The callers of the codec

    The scripts that drive the codec.  What a directory walk yields, what a
    text-mode read returns and what an archive extracts come from Python's
    library and the operating system; they are arguments of the models. *)

(** Python's truth value of what [decrypt_data] returns: [None] and the
    empty byte string are false. *)
Definition truthy (dec : option (list byte)) : bool :=
  match dec with
  | Some (_ :: _) => true
  | _ => false
  end.

(** The lines [verify_encrypted_files.py] prints. *)
Inductive VerifyLine :=
| MissingEncFor (rel : string)
| VDecryptionFailedFor (enc_path : string)
| OriginalNotPresentFor (rel : string)
| VerifiedRel (rel : string)
| MismatchAfterDecryptFor (rel : string)
| RestoredFileMissing (restored : string)
| VerificationCompletedFail
| VerificationCompletedSuccess.

Section Callers.
Context `{Hashlib}.

(** [verify_sample_decrypt.py]: [files] are the contents of the [.enc]
    files found, in the order of their sorted paths.  The result is the pair
    printed at the end, [OK: ok / len(paths)]. *)
Definition verify_sample_decrypt (cfg : Config) (passphrase : string)
    (files : list (list byte)) : nat * nat :=
  let ok :=
    foldl (λ ok b,
             let dec := decrypt_data cfg b passphrase in
             if truthy dec then S ok else ok)
          0 (take 100 files) in
  (ok, length files).

(** One iteration of the loop of [verify_encrypted_files.py] over the
    manifest.  The state is the file system (the archive has been extracted
    to [ROOT/tmp_verify]), the [failed] flag and the lines printed. *)
Definition verify_entry (ROOT : string) (cfg : Config) (passphrase : string)
    (st : gmap string (list byte) * bool * list VerifyLine) (it : ManifestEntry)
    : gmap string (list byte) * bool * list VerifyLine :=
  let '(fs, failed, out) := st in
  if negb (entry_sensitive it) then (fs, failed, out)
  else
    let tmpdir := joinpath ROOT "tmp_verify" in
    let rel := entry_path it in
    let enc_path := joinpath ROOT (rel +:+ ".enc") in
    match fs !! enc_path with
    | None => (fs, true, out ++ [MissingEncFor rel])
    | Some artifact =>
      let test_enc := joinpath tmpdir (name enc_path) in
      let fs := <[test_enc := artifact]> fs in
      let '(ok, fs) := decrypt_file cfg fs test_enc passphrase in
      if negb ok then (fs, true, out ++ [VDecryptionFailedFor enc_path])
      else
        let restored := stem_path test_enc in
        let orig_from_backup := joinpath tmpdir rel in
        match fs !! orig_from_backup with
        | None => (fs, true, out ++ [OriginalNotPresentFor rel])
        | Some orig_bytes =>
          match fs !! restored with
          | Some restored_bytes =>
            if decide (restored_bytes = orig_bytes)
            then (delete restored fs, failed, out ++ [VerifiedRel rel])
            else (delete restored fs, true, out ++ [MismatchAfterDecryptFor rel])
          | None => (fs, true, out ++ [RestoredFileMissing restored])
          end
        end
    end.

(** [verify_encrypted_files.py] from the extracted archive on: the loop,
    the closing line and the exit status. *)
Definition verify_encrypted_files (ROOT : string) (cfg : Config) (passphrase : string)
    (fs : gmap string (list byte)) (manifest : list ManifestEntry)
    : Exit * list VerifyLine :=
  let '(_, failed, out) := foldl (verify_entry ROOT cfg passphrase) (fs, false, []) manifest in
  if failed then (ExitStatus 1, out ++ [VerificationCompletedFail])
  else (ExitStatus 0, out ++ [VerificationCompletedSuccess]).

(** [encrypt_and_validate_file.py <file> <passphrase>]: the exit and the
    file system it leaves. *)
Definition encrypt_and_validate_file (shield_config : Config)
    (fs : gmap string (list byte)) (file_path passphrase : string) (rnd : list byte)
    : Exit * gmap string (list byte) :=
  match fs !! file_path with
  | None => (ExitStatus 1, fs)
  | Some original =>
    let cfg := batch_config shield_config in
    let tmp_orig := file_path +:+ ".orig.tmp" in
    let fs := <[tmp_orig := original]> fs in
    let '(ok, fs) := encrypt_file cfg fs file_path passphrase rnd in
    if negb ok then (ExitStatus 1, delete tmp_orig fs)
    else
      let enc_path := enc_of file_path in
      match fs !! enc_path with
      | None => (ExitStatus 1, delete tmp_orig fs)
      | Some _ =>
        let '(ok, fs) := decrypt_file cfg fs enc_path passphrase in
        if negb ok then (ExitStatus 1, delete tmp_orig fs)
        else
          match fs !! file_path with
          | Some new_bytes =>
            match fs !! tmp_orig with
            | None => (Traceback "FileNotFoundError", fs)
            | Some orig_bytes =>
              if decide (orig_bytes = new_bytes) then (ExitStatus 0, delete tmp_orig fs)
              else (ExitStatus 1, delete tmp_orig fs)
            end
          | None => (ExitStatus 1, delete tmp_orig fs)
          end
      end
  end.

(** [scan_and_encrypt_directory].  [listing] is the sequence of paths
    [directory.rglob('*')] yields; [read_text n content] is what a text-mode
    read of [n] characters with [errors='ignore'] returns for a file with
    that content; the [k]-th call of [encrypt_file] draws [token_bytes k].
    The result carries the file system and the two counters. *)
Fixpoint scan_loop (token_bytes : nat → list byte) (read_text : nat → list byte → string)
    (cfg : Config) (user_key : string) (classification : option string)
    (listing : list string) (fs : gmap string (list byte))
    (encrypted_count skipped_count : nat) : gmap string (list byte) * nat * nat :=
  match listing with
  | [] => (fs, encrypted_count, skipped_count)
  | file_path :: rest =>
    match fs !! file_path with
    | None =>
      scan_loop token_bytes read_text cfg user_key classification rest fs
        encrypted_count skipped_count
    | Some content =>
      let wanted :=
        match classification with
        | None | Some EmptyString => true
        | Some c => str_in c (read_text 500 content)
        end in
      if negb wanted then
        scan_loop token_bytes read_text cfg user_key classification rest fs
          encrypted_count skipped_count
      else
        let '(ok, fs) :=
          encrypt_file cfg fs file_path user_key
            (token_bytes (encrypted_count + skipped_count)) in
        if ok then
          scan_loop token_bytes read_text cfg user_key classification rest fs
            (S encrypted_count) skipped_count
        else
          scan_loop token_bytes read_text cfg user_key classification rest fs
            encrypted_count (S skipped_count)
    end
  end.

Definition scan_and_encrypt_directory (token_bytes : nat → list byte)
    (read_text : nat → list byte → string) (cfg : Config) (user_key : string)
    (classification : option string) (listing : list string)
    (fs : gmap string (list byte)) : gmap string (list byte) * nat * nat :=
  scan_loop token_bytes read_text cfg user_key classification listing fs 0 0.

End Callers.

(** ** Concrete inputs of the further properties *)

Definition other_passphrase : string := "incorrect-horse-battery-staple".

(** The package of [hello world] under the sample passphrase. *)
Definition sample_package : list byte :=
  encrypt_data (H := stand_in_hashlib) default_config (encode "hello world")
    sample_passphrase (replicate 32 x2a).

Definition notes_tree : gmap string (list byte) :=
  {[ "docs/notes.txt" := encode "hello world"; "docs/other.txt" := encode "other" ]}.

(** A configuration whose marker is longer than the header [is_encrypted]
    reads. *)
Definition long_marker_config : Config :=
  {| encryption_marker :=
       "ARTIFACT_SHIELD_ENCRYPTED_WITH_A_MARKER_THAT_IS_LONGER_THAN_THE_ONE_HUNDRED_BYTES_OF_THE_HEADER_THAT_IS_READ";
     exclude_patterns := exclude_patterns default_config;
     delete_original_after_encrypt := false;
     dry_run := false |}.

(** Two sensitive files with different file names; the second is under an
    excluded directory. *)
Definition distinct_manifest : list ManifestEntry :=
  [ {| entry_path := "alice/key.pem"; entry_sensitive := true |};
    {| entry_path := "README.md"; entry_sensitive := false |};
    {| entry_path := "node_modules/token.txt"; entry_sensitive := true |} ].

(** A repository with one artifact directly below the root, and an
    extracted backup that holds something else under the entry's name. *)
Definition top_level_tree : gmap string (list byte) :=
  {[ "/repo/notes.txt.enc" := sample_package;
     "/repo/tmp_verify/notes.txt" := encode "what the backup holds" ]}.

Definition top_level_manifest : list ManifestEntry :=
  [ {| entry_path := "notes.txt"; entry_sensitive := true |};
    {| entry_path := "README.md"; entry_sensitive := false |} ].

(** A repository with one artifact in a sub-directory and its original in
    the extracted backup. *)
Definition nested_tree : gmap string (list byte) :=
  {[ "/repo/secrets/a.txt.enc" := sample_package;
     "/repo/tmp_verify/secrets/a.txt" := encode "hello world" ]}.

(** A document that quotes the marker, beside an artifact of another file. *)
Definition quoting_tree : gmap string (list byte) :=
  {[ "docs/howto.md" := encode "Files start with ARTIFACT_SHIELD_ENCRYPTED once protected.";
     "docs/howto.md.enc" := sample_package ]}.

(** A directory with a plaintext, an artifact and an excluded file, and
    what walking it yields. *)
Definition scanned_tree : gmap string (list byte) :=
  {[ "docs/notes.txt" := encode "hello world";
     "docs/notes.txt.enc" := sample_package;
     "node_modules/x.js" := encode "x" ]}.

Definition scanned_listing : list string :=
  ["docs/notes.txt"; "docs/notes.txt.enc"; "node_modules/x.js"].

Definition sample_read_text (n : nat) (content : list byte) : string :=
  string_of_list_byte (take n content).

(** * Properties *)

(** ** Byte arithmetic *)

Lemma to_N_byte_of_N n : Byte.to_N (byte_of_N n) = (n mod 256)%N.
Proof.
  unfold byte_of_N. destruct (Byte.of_N (n mod 256)) as [b|] eqn:E.
  - by apply Byte.to_of_N.
  - apply Byte.of_N_None_iff in E.
    pose proof (N.mod_lt n 256). lia.
Qed.

Lemma to_N_inj a b : Byte.to_N a = Byte.to_N b → a = b.
Proof.
  intros E. pose proof (Byte.of_to_N a) as Ha.
  rewrite E, Byte.of_to_N in Ha. congruence.
Qed.

Lemma to_N_lt_256 a : (Byte.to_N a < 256)%N.
Proof. pose proof (Byte.to_N_bounded a). lia. Qed.

Lemma log2_byte x : (x < 256)%N → (N.log2 x < 8)%N.
Proof.
  intros Hx. destruct (N.eq_dec x 0%N) as [->|Hne]; [done|].
  apply N.log2_lt_pow2; [lia|]. exact Hx.
Qed.

Lemma lxor_lt_256 x y : (x < 256)%N → (y < 256)%N → (N.lxor x y < 256)%N.
Proof.
  intros Hx Hy. destruct (N.eq_dec (N.lxor x y) 0%N) as [->|Hne]; [done|].
  change 256%N with (2 ^ 8)%N. apply N.log2_lt_pow2; [lia|].
  pose proof (N.log2_lxor x y). pose proof (log2_byte x Hx). pose proof (log2_byte y Hy).
  lia.
Qed.

Lemma to_N_bxor a b : Byte.to_N (bxor a b) = N.lxor (Byte.to_N a) (Byte.to_N b).
Proof.
  unfold bxor. rewrite to_N_byte_of_N. apply N.mod_small.
  apply lxor_lt_256; apply to_N_lt_256.
Qed.

Lemma bxor_involutive a k : bxor (bxor a k) k = a.
Proof.
  apply to_N_inj. rewrite !to_N_bxor.
  by rewrite N.lxor_assoc, N.lxor_nilpotent, N.lxor_0_r.
Qed.

Lemma bxor_assoc a b c : bxor (bxor a b) c = bxor a (bxor b c).
Proof. apply to_N_inj. rewrite !to_N_bxor. apply N.lxor_assoc. Qed.

Lemma bxor_comm a b : bxor a b = bxor b a.
Proof. apply to_N_inj. rewrite !to_N_bxor. apply N.lxor_comm. Qed.

Lemma bxor_nilpotent a : bxor a a = x00.
Proof. apply to_N_inj. rewrite to_N_bxor. by rewrite N.lxor_nilpotent. Qed.

Lemma bxor_x00_r a : bxor a x00 = a.
Proof. apply to_N_inj. rewrite to_N_bxor. apply N.lxor_0_r. Qed.

Lemma bxor_cancel_r a b : bxor a b = a → b = x00.
Proof.
  intros E. apply to_N_inj.
  assert (E' : N.lxor (Byte.to_N a) (Byte.to_N b) = Byte.to_N a)
    by (by rewrite <- to_N_bxor, E).
  change (Byte.to_N x00) with 0%N.
  rewrite <- (N.lxor_nilpotent (Byte.to_N a)) at 1.
  rewrite <- E' at 2. rewrite <- N.lxor_assoc, N.lxor_nilpotent. by rewrite N.lxor_0_l.
Qed.

(** ** The passes as index-wise maps *)

Section Passes.

Lemma length_xor_at i k buf : length (xor_at i k buf) = length buf.
Proof. apply length_alter. Qed.

Lemma length_pass g idx buf : length (pass g idx buf) = length buf.
Proof.
  revert buf. induction idx as [|i idx IH]; intros buf; [done|].
  unfold pass in *. simpl. by rewrite IH, length_xor_at.
Qed.

Lemma pass_lookup g idx buf j :
  NoDup idx →
  pass g idx buf !! j =
    (λ b, if decide (j ∈ idx) then bxor b (g (length buf) j) else b) <$> buf !! j.
Proof.
  revert buf. induction idx as [|i idx IH]; intros buf Hnd.
  - unfold pass. simpl. by destruct (buf !! j).
  - apply NoDup_cons in Hnd as [Hi Hnd].
    change (pass g (i :: idx) buf) with (pass g idx (xor_at i (g (length buf) i) buf)).
    rewrite IH by done. rewrite length_xor_at. unfold xor_at.
    destruct (decide (i = j)) as [->|Hne].
    + rewrite list_lookup_alter_eq. destruct (buf !! j); simpl; [|done].
      rewrite decide_False by done. rewrite decide_True by apply list_elem_of_here. done.
    + rewrite list_lookup_alter_ne by done. destruct (buf !! j); simpl; [|done].
      f_equal. destruct (decide (j ∈ idx)) as [Hin|Hnin].
      * rewrite decide_True; [done|]. by apply list_elem_of_further.
      * rewrite decide_False; [done|]. intros [?|?]%elem_of_cons; congruence.
Qed.

Lemma pass_imap g idx buf :
  covers idx (length buf) →
  pass g idx buf = imap (λ i b, bxor b (g (length buf) i)) buf.
Proof.
  intros [Hnd Hall]. apply list_eq. intros j.
  rewrite pass_lookup, list_lookup_imap by done.
  destruct (buf !! j) eqn:E; simpl; [|done].
  rewrite decide_True; [done|]. apply Hall. by eapply lookup_lt_Some.
Qed.

Lemma covers_seq n : covers (seq 0 n) n.
Proof.
  split; [apply NoDup_seq|]. intros j Hj. apply elem_of_seq. lia.
Qed.

Lemma covers_rev_seq n : covers (rev (seq 0 n)) n.
Proof.
  split.
  - rewrite <- Permutation_rev. apply NoDup_seq.
  - intros j Hj. apply list_elem_of_In, in_rev. rewrite rev_involutive.
    apply list_elem_of_In, elem_of_seq. lia.
Qed.

Lemma pass_pass g idx idx' buf :
  covers idx (length buf) → covers idx' (length buf) →
  pass g idx' (pass g idx buf) = buf.
Proof.
  intros Hc Hc'.
  rewrite (pass_imap g idx' (pass g idx buf)) by (by rewrite length_pass).
  rewrite length_pass, pass_imap by done.
  apply list_eq. intros j. rewrite !list_lookup_imap.
  destruct (buf !! j); simpl; [|done]. by rewrite bxor_involutive.
Qed.

End Passes.

(** ** The layers are involutive and keep the length *)

Section Layers.

Lemma layer1_pass key buf : layer1 key buf = pass (key1 key) (seq 0 (length buf)) buf.
Proof. reflexivity. Qed.

Lemma layer2_pass key buf : layer2 key buf = pass (key2 key) (rev (seq 0 (length buf))) buf.
Proof. reflexivity. Qed.

Lemma layer3_pass buf : layer3 buf = pass key3 (seq 0 (length buf)) buf.
Proof. reflexivity. Qed.

Lemma length_layer1 key buf : length (layer1 key buf) = length buf.
Proof. rewrite layer1_pass. apply length_pass. Qed.

Lemma length_layer2 key buf : length (layer2 key buf) = length buf.
Proof. rewrite layer2_pass. apply length_pass. Qed.

Lemma length_layer3 buf : length (layer3 buf) = length buf.
Proof. rewrite layer3_pass. apply length_pass. Qed.

Lemma layer1_involutive key buf : layer1 key (layer1 key buf) = buf.
Proof.
  rewrite (layer1_pass key (layer1 key buf)), length_layer1, layer1_pass.
  apply pass_pass; apply covers_seq.
Qed.

Lemma layer2_involutive key buf : layer2 key (layer2 key buf) = buf.
Proof.
  rewrite (layer2_pass key (layer2 key buf)), length_layer2, layer2_pass.
  apply pass_pass; apply covers_rev_seq.
Qed.

Lemma layer3_involutive buf : layer3 (layer3 buf) = buf.
Proof.
  rewrite (layer3_pass (layer3 buf)), length_layer3, layer3_pass.
  apply pass_pass; apply covers_seq.
Qed.

Lemma layers_inverse key buf :
  layer1 key (layer2 key (layer3 (layer3 (layer2 key (layer1 key buf))))) = buf.
Proof. by rewrite layer3_involutive, layer2_involutive, layer1_involutive. Qed.

End Layers.

(** ** Text and framing *)

Lemma encode_app a b : encode (a +:+ b) = encode a ++ encode b.
Proof.
  unfold encode, list_byte_of_string.
  rewrite <- map_app. f_equal.
  induction a as [|c a IH]; simpl; [done|]. by rewrite IH.
Qed.

Lemma encode_string_of_list_byte l : encode (string_of_list_byte l) = l.
Proof. apply list_byte_of_string_of_list_byte. Qed.

Lemma decode_encode s : utf8_valid (encode s) = true → decode (encode s) = Some s.
Proof.
  intros Hv. unfold decode. rewrite Hv. f_equal.
  apply string_of_list_byte_of_string.
Qed.

Lemma utf8_valid_ascii l : Forall (λ b, in_range 0 127 b = true) l → utf8_valid l = true.
Proof.
  induction 1 as [|b l Hb _ IH]; [done|]. simpl. by rewrite Hb.
Qed.

Lemma find_sep_cons2 a b rest :
  find_sep (a :: b :: rest) =
    if decide (a = colon ∧ b = colon) then Some ([], rest)
    else match find_sep (b :: rest) with
         | Some (pre, post) => Some (a :: pre, post)
         | None => None
         end.
Proof. reflexivity. Qed.

Lemma find_sep_colon_free pre :
  Forall (λ b, b ≠ colon) pre → find_sep (pre ++ [colon]) = None.
Proof.
  induction 1 as [|a pre Ha _ IH]; [done|].
  change ((a :: pre) ++ [colon]) with (a :: (pre ++ [colon])).
  destruct (pre ++ [colon]) as [|b rest] eqn:E; [done|].
  rewrite find_sep_cons2. rewrite decide_False by (intros [? _]; done).
  by rewrite IH.
Qed.

(** A field that does not run into the separator that follows it is cut
    off exactly at that separator. *)
Lemma find_sep_field pre post :
  find_sep (pre ++ [colon]) = None →
  find_sep (pre ++ sep ++ post) = Some (pre, post).
Proof.
  induction pre as [|a pre IH]; intros Hfree; [done|].
  change ((a :: pre) ++ sep ++ post) with (a :: (pre ++ sep ++ post)).
  change ((a :: pre) ++ [colon]) with (a :: (pre ++ [colon])) in Hfree.
  destruct pre as [|b pre].
  - change (a :: [] ++ [colon]) with (a :: colon :: []) in Hfree.
    change (a :: [] ++ sep ++ post) with (a :: colon :: colon :: post).
    rewrite find_sep_cons2 in Hfree. rewrite !find_sep_cons2.
    destruct (decide (a = colon ∧ colon = colon)); [done|].
    by rewrite decide_True.
  - change ((b :: pre) ++ sep ++ post) with (b :: (pre ++ sep ++ post)) in *.
    change ((b :: pre) ++ [colon]) with (b :: (pre ++ [colon])) in *.
    rewrite find_sep_cons2 in Hfree. rewrite find_sep_cons2.
    destruct (decide (a = colon ∧ b = colon)); [done|].
    destruct (find_sep (b :: pre ++ [colon])) as [[??]|] eqn:E; [done|].
    by rewrite IH.
Qed.

Lemma hex_digit_spec n :
  (n < 16)%N → is_hex_digit (hex_digit n) = true.
Proof.
  intros Hn. unfold is_hex_digit, hex_digit, in_range.
  destruct (N.ltb_spec n 10).
  - rewrite to_N_byte_of_N, N.mod_small by lia.
    apply orb_true_iff. left. apply andb_true_iff. split; apply N.leb_le; lia.
  - rewrite to_N_byte_of_N, N.mod_small by lia.
    apply orb_true_iff. right. apply andb_true_iff. split; apply N.leb_le; lia.
Qed.

Lemma hexlify_hex rnd : Forall (λ b, is_hex_digit b = true) (hexlify rnd).
Proof.
  unfold hexlify. induction rnd as [|b rnd IH]; [constructor|].
  simpl. pose proof (to_N_lt_256 b).
  constructor; [|constructor; [|exact IH]]; apply hex_digit_spec.
  - apply N.Div0.div_lt_upper_bound. lia.
  - apply N.mod_lt. lia.
Qed.

Lemma length_hexlify rnd : length (hexlify rnd) = 2 * length rnd.
Proof.
  induction rnd as [|b rnd IH]; [done|].
  change (hexlify (b :: rnd)) with
    (hex_digit (Byte.to_N b / 16) :: hex_digit (Byte.to_N b mod 16) :: hexlify rnd).
  simpl. rewrite IH. lia.
Qed.

Lemma hex_digit_ascii b : is_hex_digit b = true → in_range 0 127 b = true.
Proof.
  unfold is_hex_digit, in_range.
  intros [[?%N.leb_le ?%N.leb_le]%andb_true_iff|[?%N.leb_le ?%N.leb_le]%andb_true_iff]%orb_true_iff;
    apply andb_true_iff; split; apply N.leb_le; lia.
Qed.

Lemma hex_digit_not_colon b : is_hex_digit b = true → b ≠ colon.
Proof. intros Hb ->. discriminate Hb. Qed.

Lemma hexlify_utf8 rnd : utf8_valid (hexlify rnd) = true.
Proof.
  apply utf8_valid_ascii. eapply Forall_impl; [apply hexlify_hex|].
  intros b. apply hex_digit_ascii.
Qed.

Lemma hexlify_field rnd : find_sep (hexlify rnd ++ [colon]) = None.
Proof.
  apply find_sep_colon_free. eapply Forall_impl; [apply hexlify_hex|].
  intros b. apply hex_digit_not_colon.
Qed.

(** ** The cipher engine *)

Section Engine.
Context `{Hashlib}.

(** The derived key is a SHA-512 digest: [key_length] is 64, the modulus
    of the key index is never zero and the index is always in range. *)
Lemma derive_encryption_key_length K salt :
  length (derive_encryption_key K salt) = 64.
Proof. unfold derive_encryption_key. apply sha512_digest_size. Qed.

Lemma key_index_in_range K salt (i : nat) :
  is_Some (derive_encryption_key K salt
             !! (i mod length (derive_encryption_key K salt))).
Proof.
  apply lookup_lt_is_Some. rewrite derive_encryption_key_length.
  apply Nat.mod_upper_bound. lia.
Qed.

Lemma version_field : find_sep (version ++ [colon]) = None.
Proof. reflexivity. Qed.

Lemma split_package marker salt ct :
  find_sep (marker ++ [colon]) = None →
  find_sep (salt ++ [colon]) = None →
  split 3 (marker ++ sep ++ version ++ sep ++ salt ++ sep ++ ct)
    = [marker; version; salt; ct].
Proof.
  intros Hm Hs. unfold split.
  rewrite (find_sep_field marker) by done.
  rewrite (find_sep_field version) by apply version_field.
  by rewrite (find_sep_field salt) by done.
Qed.

Lemma encode_token_hex rnd : encode (token_hex rnd) = hexlify rnd.
Proof. apply encode_string_of_list_byte. Qed.

(** Decrypting a package made by [encrypt_data], with any passphrase: the
    three passes are undone with the key derived from the embedded salt. *)
Lemma decrypt_encrypt_data cfg P K1 K2 rnd :
  marker_well_formed cfg →
  decrypt_data cfg (encrypt_data cfg P K1 rnd) K2 =
    let k1 := derive_encryption_key K1 (token_hex rnd) in
    let k2 := derive_encryption_key K2 (token_hex rnd) in
    Some (layer1 k2 (layer2 k2 (layer3 (layer3 (layer2 k1 (layer1 k1 P)))))).
Proof.
  intros [Hutf Hfield]. unfold decrypt_data, encrypt_data.
  rewrite split_package; [|done|rewrite encode_token_hex; apply hexlify_field].
  rewrite decode_encode by done.
  rewrite decide_False by (intros Hne; by apply Hne).
  rewrite decode_encode by (rewrite encode_token_hex; apply hexlify_utf8).
  done.
Qed.

(** C1. Round trip: whatever 32 bytes the salt is drawn from, decrypting
    the package [encrypt_data] makes from [P] under passphrase [K] with the
    same passphrase gives back exactly [P].  The configured marker is assumed
    to be a marker the framing can carry (as the default one is). *)
Theorem round_trip cfg (P : list byte) (K : string) (rnd : list byte) :
  marker_well_formed cfg →
  decrypt_data cfg (encrypt_data cfg P K rnd) K = Some P.
Proof.
  intros Hm. rewrite decrypt_encrypt_data by done. simpl.
  by rewrite layers_inverse.
Qed.

End Engine.

Lemma default_marker_well_formed : marker_well_formed default_config.
Proof. split; reflexivity. Qed.

Lemma round_trip_witness :
  marker_well_formed default_config ∧
  decrypt_data (H := stand_in_hashlib) default_config
    (encrypt_data (H := stand_in_hashlib) default_config
       (encode "hello world") "correct-horse-battery-staple12" (replicate 32 x2a))
    "correct-horse-battery-staple12" = Some (encode "hello world").
Proof.
  split; [apply default_marker_well_formed|].
  apply (round_trip (H := stand_in_hashlib)). apply default_marker_well_formed.
Defined.

Ltac bxor_ring :=
  apply to_N_inj; rewrite ?to_N_bxor; apply N.bits_inj; intros ?bit;
  rewrite ?N.lxor_spec;
  repeat match goal with |- context [N.testbit ?x ?n] => destruct (N.testbit x n) end;
  reflexivity.

Lemma bxor_eq_x00 a b : bxor a b = x00 → a = b.
Proof.
  intros E. rewrite <- (bxor_x00_r a), <- E. bxor_ring.
Qed.

Section WrongKey.
Context `{Hashlib}.

Lemma layer1_imap key buf :
  layer1 key buf = imap (λ i b, bxor b (key !!! (i mod length key))) buf.
Proof. rewrite layer1_pass. apply pass_imap, covers_seq. Qed.

Lemma layer2_imap key buf :
  layer2 key buf =
    imap (λ i b, bxor b (key !!! ((length buf - i - 1) mod length key))) buf.
Proof. rewrite layer2_pass. apply pass_imap, covers_rev_seq. Qed.

(** Decrypting under another key leaves the XOR of the two keystreams on
    the plaintext. *)
Lemma layers_two_keys k1 k2 P :
  layer1 k2 (layer2 k2 (layer3 (layer3 (layer2 k1 (layer1 k1 P))))) =
    imap (λ i b, bxor b (bxor (keystream k1 (length P) i) (keystream k2 (length P) i))) P.
Proof.
  rewrite layer3_involutive.
  rewrite (layer1_imap k2), (layer2_imap k2), (layer2_imap k1), (layer1_imap k1).
  rewrite !length_imap.
  apply list_eq. intros i. rewrite !list_lookup_imap.
  destruct (P !! i) as [b|]; simpl; [|done]. f_equal.
  unfold keystream. bxor_ring.
Qed.

Lemma imap_bxor_fixed (d : nat → byte) (P : list byte) :
  imap (λ i b, bxor b (d i)) P = P ↔ ∀ i, i < length P → d i = x00.
Proof.
  split.
  - intros E i Hi. destruct (lookup_lt_is_Some_2 P i Hi) as [b Hb].
    assert (E' : imap (λ i b, bxor b (d i)) P !! i = Some b) by (by rewrite E).
    rewrite list_lookup_imap, Hb in E'. simpl in E'.
    injection E' as E'. by eapply bxor_cancel_r.
  - intros Hd. apply list_eq. intros i. rewrite list_lookup_imap.
    destruct (P !! i) as [b|] eqn:Hb; simpl; [|done].
    rewrite Hd by (by eapply lookup_lt_Some). by rewrite bxor_x00_r.
Qed.

(** C7 (as amended). Decrypting a package with another passphrase never
    fails: it returns a byte string of the plaintext's length, the plaintext
    XORed with the two derived keystreams.  That result differs from the
    plaintext exactly when the keystreams derived from the two passphrases
    (and the embedded salt) differ at some position below the plaintext's
    length. *)
Theorem wrong_key_outcome cfg (P : list byte) (K1 K2 : string) (rnd : list byte) :
  marker_well_formed cfg →
  K1 ≠ K2 →
  let k1 := derive_encryption_key K1 (token_hex rnd) in
  let k2 := derive_encryption_key K2 (token_hex rnd) in
  let n := length P in
  decrypt_data cfg (encrypt_data cfg P K1 rnd) K2 =
    Some (imap (λ i b, bxor b (bxor (keystream k1 n i) (keystream k2 n i))) P)
  ∧ (decrypt_data cfg (encrypt_data cfg P K1 rnd) K2 ≠ Some P ↔
     ∃ i, i < n ∧ keystream k1 n i ≠ keystream k2 n i).
Proof.
  intros Hm _ k1 k2 n.
  assert (Hdec : decrypt_data cfg (encrypt_data cfg P K1 rnd) K2 =
    Some (imap (λ i b, bxor b (bxor (keystream k1 n i) (keystream k2 n i))) P)).
  { rewrite decrypt_encrypt_data by done. simpl. by rewrite layers_two_keys. }
  split; [exact Hdec|]. rewrite Hdec. split.
  - intros Hne.
    destruct (decide (Exists (λ i, keystream k1 n i ≠ keystream k2 n i) (seq 0 n)))
      as [Hex|Hnex].
    + apply Exists_exists in Hex as (i & Hi%elem_of_seq & Hk). exists i. split; [lia|done].
    + exfalso. apply Hne. f_equal. apply imap_bxor_fixed. intros i Hi.
      destruct (decide (keystream k1 n i = keystream k2 n i)) as [->|Hk].
      * apply bxor_nilpotent.
      * exfalso. apply Hnex, Exists_exists. exists i. split; [|done].
        apply elem_of_seq. unfold n. lia.
  - intros (i & Hi & Hk) [= E]. apply Hk, bxor_eq_x00.
    by apply (proj1 (imap_bxor_fixed _ P) E).
Qed.

(** With at most one byte of plaintext the two layers cancel: the package
    decrypts to the plaintext under every passphrase. *)
Lemma wrong_key_short_plaintext cfg (P : list byte) (K1 K2 : string) (rnd : list byte) :
  marker_well_formed cfg →
  (length P ≤ 1)%nat →
  decrypt_data cfg (encrypt_data cfg P K1 rnd) K2 = Some P.
Proof.
  intros Hm Hlen. rewrite decrypt_encrypt_data by done. simpl.
  rewrite layers_two_keys. f_equal. apply imap_bxor_fixed. intros i Hi.
  assert (i = 0) as -> by lia. assert (length P = 1) as -> by lia.
  unfold keystream. simpl. by rewrite !bxor_nilpotent.
Qed.

End WrongKey.

(** A marker that holds the separator is cut at its first [::] when the
    package is split, so the packages made with it are rejected: this is what
    [marker_well_formed] rules out. *)
Example marker_with_separator_rejected :
  ¬ marker_well_formed separator_marker_config ∧
  decrypt_data (H := stand_in_hashlib) separator_marker_config
    (encrypt_data (H := stand_in_hashlib) separator_marker_config
       (encode "hello world") sample_passphrase (replicate 32 x2a))
    sample_passphrase = None.
Proof.
  split; [|vm_compute; reflexivity].
  intros [_ Hfield]. vm_compute in Hfield. discriminate Hfield.
Qed.

Lemma wrong_key_outcome_witness :
  marker_well_formed default_config ∧
  "correct-horse-battery-staple12" ≠ "incorrect-horse-battery-staple" ∧
  (decrypt_data (H := stand_in_hashlib) default_config
     (encrypt_data (H := stand_in_hashlib) default_config (encode "hello world")
        "correct-horse-battery-staple12" (replicate 32 x2a))
     "incorrect-horse-battery-staple" ≠ Some (encode "hello world") ↔
   ∃ i, i < 11 ∧
     keystream (derive_encryption_key (H := stand_in_hashlib)
                  "correct-horse-battery-staple12" (token_hex (replicate 32 x2a))) 11 i
     ≠ keystream (derive_encryption_key (H := stand_in_hashlib)
                  "incorrect-horse-battery-staple" (token_hex (replicate 32 x2a))) 11 i).
Proof.
  split; [apply default_marker_well_formed|]. split; [discriminate|].
  apply (wrong_key_outcome (H := stand_in_hashlib) default_config (encode "hello world")
           "correct-horse-battery-staple12" "incorrect-horse-battery-staple"
           (replicate 32 x2a)).
  - apply default_marker_well_formed.
  - discriminate.
Defined.

(** C7 (as stated) fails: a one-byte plaintext encrypted under one
    passphrase decrypts to itself under a different one. *)
Lemma wrong_key_counterexample :
  "correct-horse-battery-staple12" ≠ "incorrect-horse-battery-staple" ∧
  decrypt_data (H := stand_in_hashlib) default_config
    (encrypt_data (H := stand_in_hashlib) default_config [x41]
       "correct-horse-battery-staple12" (replicate 32 x2a))
    "incorrect-horse-battery-staple" = Some [x41].
Proof. split; [discriminate|]. vm_compute. reflexivity. Qed.

(** ** Package framing *)

Section Framing.
Context `{Hashlib}.

Lemma decode_Some_encode l s : decode l = Some s → encode s = l.
Proof.
  unfold decode. destruct (utf8_valid l); [|done].
  intros [= <-]. apply encode_string_of_list_byte.
Qed.

(** C9. Package framing: with a salt drawn from 32 random bytes,
    [encrypt_data] returns exactly marker, [::], [v1.0], [::], a salt of 64
    hexadecimal characters, [::] and a ciphertext as long as the plaintext;
    [decrypt_data] returns [None] for every input that does not split (at
    most 3 splits on [::]) into exactly 4 fields, and for every input whose
    first field is not the configured marker. *)
Theorem package_framing cfg (P : list byte) (K : string) (rnd : list byte) :
  length rnd = 32 →
  (∃ salt_hex ciphertext,
      length salt_hex = 64 ∧
      Forall (λ b, is_hex_digit b = true) salt_hex ∧
      length ciphertext = length P ∧
      encrypt_data cfg P K rnd =
        encode (encryption_marker cfg) ++ encode "::" ++ encode "v1.0" ++ encode "::"
          ++ salt_hex ++ encode "::" ++ ciphertext)
  ∧ (∀ pkg K',
      length (split 3 pkg) ≠ 4 ∨
      (∃ m v s c, split 3 pkg = [m; v; s; c] ∧ m ≠ encode (encryption_marker cfg)) →
      decrypt_data cfg pkg K' = None).
Proof.
  intros Hrnd. split.
  - exists (hexlify rnd),
      (layer3 (layer2 (derive_encryption_key K (token_hex rnd))
                 (layer1 (derive_encryption_key K (token_hex rnd)) P))).
    split; [rewrite length_hexlify; lia|].
    split; [apply hexlify_hex|].
    split; [by rewrite length_layer3, length_layer2, length_layer1|].
    unfold encrypt_data. by rewrite encode_token_hex.
  - intros pkg K' Hbad. unfold decrypt_data.
    destruct Hbad as [Hlen|(m & v & s & c & Hsplit & Hm)].
    + destruct (split 3 pkg) as [|? [|? [|? [|? [|? ?]]]]]; try done.
    + rewrite Hsplit. destruct (decode m) as [t|] eqn:Hd; [|done].
      apply decode_Some_encode in Hd.
      destruct (decide (t ≠ encryption_marker cfg)); [done|].
      exfalso. apply Hm. rewrite <- Hd. f_equal. by apply dec_stable.
Qed.

End Framing.

Lemma package_framing_witness :
  length (replicate 32 x2a) = 32 ∧
  ((∃ salt_hex ciphertext,
      length salt_hex = 64 ∧
      Forall (λ b, is_hex_digit b = true) salt_hex ∧
      length ciphertext = length (encode "hello world") ∧
      encrypt_data (H := stand_in_hashlib) default_config (encode "hello world")
        "correct-horse-battery-staple12" (replicate 32 x2a) =
        encode (encryption_marker default_config) ++ encode "::" ++ encode "v1.0"
          ++ encode "::" ++ salt_hex ++ encode "::" ++ ciphertext)
   ∧ (∀ pkg K',
      length (split 3 pkg) ≠ 4 ∨
      (∃ m v s c, split 3 pkg = [m; v; s; c]
                  ∧ m ≠ encode (encryption_marker default_config)) →
      decrypt_data (H := stand_in_hashlib) default_config pkg K' = None)).
Proof.
  split; [reflexivity|].
  apply (package_framing (H := stand_in_hashlib) default_config (encode "hello world")
           "correct-horse-battery-staple12" (replicate 32 x2a)).
  reflexivity.
Defined.

(** ** The file codec *)

Lemma startswith_app needle rest : startswith needle (needle ++ rest) = true.
Proof.
  induction needle as [|a needle IH]; [done|].
  simpl. by rewrite bool_decide_eq_true_2, IH.
Qed.

Lemma contains_unfold needle hay :
  contains needle hay =
    startswith needle hay
    || match hay with [] => false | _ :: hay' => contains needle hay' end.
Proof. by destruct hay. Qed.

Lemma contains_app pre needle rest : contains needle (pre ++ needle ++ rest) = true.
Proof.
  induction pre as [|a pre IH].
  - rewrite contains_unfold. simpl. by rewrite startswith_app.
  - rewrite contains_unfold. simpl. rewrite IH. apply orb_true_r.
Qed.

(** The header test sees a marker that lies within the first 100 bytes,
    wherever it starts. *)
Lemma contains_header pre needle post :
  (length pre + length needle ≤ 100)%nat →
  contains needle (take 100 (pre ++ needle ++ post)) = true.
Proof.
  intros Hlen.
  rewrite take_app_ge by lia.
  rewrite take_app_ge by lia.
  apply contains_app.
Qed.

Lemma not_endswith_enc_tmp (s : string) : str_endswith ".enc" (s +:+ ".tmp") = false.
Proof.
  unfold str_endswith, endswith. rewrite encode_app, rev_app_distr. reflexivity.
Qed.

Section CodecProperties.
Context `{Hashlib}.

(** C8 (as amended). Idempotent encrypt: on a file whose first 100 bytes
    contain the configured marker, [encrypt_file] writes nothing and deletes
    nothing; it returns [True] when the path is not excluded, and [False]
    when it is (the exclusion test comes first). *)
Theorem encrypt_file_marked cfg (fs : gmap string (list byte))
    (file_path user_key : string) (rnd : list byte) :
  is_encrypted cfg fs file_path = true →
  encrypt_file cfg fs file_path user_key rnd = (negb (should_exclude cfg file_path), fs).
Proof.
  intros Hmarked. unfold encrypt_file.
  destruct (should_exclude cfg file_path); [done|].
  by rewrite Hmarked.
Qed.

(** C10. Marker false positive: a file that is not excluded and holds the
    marker text anywhere within its first 100 bytes, whatever the rest of
    its content, is classified as already encrypted; [encrypt_file] returns
    [True] and leaves the file system as it was, so the file is still there
    with its plaintext content and no artifact has been written. *)
Theorem marker_false_positive cfg (fs : gmap string (list byte))
    (file_path user_key : string) (rnd before after : list byte) :
  should_exclude cfg file_path = false →
  fs !! file_path = Some (before ++ encode (encryption_marker cfg) ++ after) →
  (length before + length (encode (encryption_marker cfg)) ≤ 100)%nat →
  is_encrypted cfg fs file_path = true ∧
  ∃ fs', encrypt_file cfg fs file_path user_key rnd = (true, fs') ∧
         fs' !! file_path = Some (before ++ encode (encryption_marker cfg) ++ after) ∧
         fs' !! enc_of file_path = fs !! enc_of file_path.
Proof.
  intros Hexcl Hfile Hlen.
  assert (Hmarked : is_encrypted cfg fs file_path = true).
  { unfold is_encrypted. rewrite Hfile. by apply contains_header. }
  split; [done|]. exists fs. unfold encrypt_file. by rewrite Hexcl, Hmarked.
Qed.

End CodecProperties.

Lemma encrypt_file_marked_witness :
  is_encrypted default_config
    {[ "docs/notes.txt.enc" := encode "ARTIFACT_SHIELD_ENCRYPTED::v1.0::00::x" ]}
    "docs/notes.txt.enc" = true ∧
  encrypt_file (H := stand_in_hashlib) default_config
    {[ "docs/notes.txt.enc" := encode "ARTIFACT_SHIELD_ENCRYPTED::v1.0::00::x" ]}
    "docs/notes.txt.enc" "correct-horse-battery-staple12" (replicate 32 x2a)
  = (negb (should_exclude default_config "docs/notes.txt.enc"),
     {[ "docs/notes.txt.enc" := encode "ARTIFACT_SHIELD_ENCRYPTED::v1.0::00::x" ]}).
Proof.
  split; [vm_compute; reflexivity|].
  apply (encrypt_file_marked (H := stand_in_hashlib)). vm_compute. reflexivity.
Defined.

(** C8 (as stated) fails: a marked artifact under an excluded directory is
    refused, not reported as a success. *)
Lemma encrypt_file_marked_counterexample :
  is_encrypted default_config
    {[ "backups/notes.txt.enc" := encode "ARTIFACT_SHIELD_ENCRYPTED::v1.0::00::x" ]}
    "backups/notes.txt.enc" = true ∧
  fst (encrypt_file (H := stand_in_hashlib) default_config
         {[ "backups/notes.txt.enc" := encode "ARTIFACT_SHIELD_ENCRYPTED::v1.0::00::x" ]}
         "backups/notes.txt.enc" "correct-horse-battery-staple12" (replicate 32 x2a))
  = false.
Proof. split; vm_compute; reflexivity. Qed.

Lemma marker_false_positive_witness :
  should_exclude default_config "docs/howto.md" = false ∧
  ({[ "docs/howto.md" := encode "Files start with " ++ encode "ARTIFACT_SHIELD_ENCRYPTED"
                           ++ encode " once protected." ]} : gmap string (list byte))
    !! "docs/howto.md"
  = Some (encode "Files start with " ++ encode (encryption_marker default_config)
            ++ encode " once protected.") ∧
  (length (encode "Files start with ")
   + length (encode (encryption_marker default_config)) ≤ 100)%nat ∧
  decrypt_data (H := stand_in_hashlib) default_config
    (encode "Files start with " ++ encode "ARTIFACT_SHIELD_ENCRYPTED"
       ++ encode " once protected.") "correct-horse-battery-staple12" = None ∧
  (is_encrypted default_config
     {[ "docs/howto.md" := encode "Files start with " ++ encode "ARTIFACT_SHIELD_ENCRYPTED"
                             ++ encode " once protected." ]} "docs/howto.md" = true ∧
   ∃ fs', encrypt_file (H := stand_in_hashlib) default_config
            {[ "docs/howto.md" := encode "Files start with "
                 ++ encode "ARTIFACT_SHIELD_ENCRYPTED" ++ encode " once protected." ]}
            "docs/howto.md" "correct-horse-battery-staple12" (replicate 32 x2a) = (true, fs') ∧
          fs' !! "docs/howto.md"
          = Some (encode "Files start with " ++ encode (encryption_marker default_config)
                    ++ encode " once protected.") ∧
          fs' !! enc_of "docs/howto.md"
          = ({[ "docs/howto.md" := encode "Files start with "
                  ++ encode "ARTIFACT_SHIELD_ENCRYPTED" ++ encode " once protected." ]}
              : gmap string (list byte)) !! enc_of "docs/howto.md").
Proof.
  split; [vm_compute; reflexivity|].
  split; [vm_compute; reflexivity|].
  split; [vm_compute; lia|].
  split; [vm_compute; reflexivity|].
  apply (marker_false_positive (H := stand_in_hashlib) default_config _ "docs/howto.md"
           "correct-horse-battery-staple12" (replicate 32 x2a)
           (encode "Files start with ") (encode " once protected.")).
  - vm_compute. reflexivity.
  - vm_compute. reflexivity.
  - vm_compute. lia.
Defined.

(** ** The batch script: verification *)

Section Verification.
Context `{Hashlib}.
Variable ROOT : string.

Lemma decrypt_file_tmp cfg (fs : gmap string (list byte)) (s user_key : string) :
  decrypt_file cfg fs (s +:+ ".tmp") user_key = (false, fs).
Proof. unfold decrypt_file. by rewrite not_endswith_enc_tmp. Qed.

(** One iteration of the verification loop on an entry that has a
    counterpart in the backup: the copy of the artifact is made, and
    [decrypt_file] refuses it because its name does not end in [.enc]. *)
Lemma verify_loop_cons cfg K (backup : gmap string (list byte)) full tmp rest w :
  verify_loop ROOT cfg K backup ((full, tmp) :: rest) w =
    match backup !! relative_to ROOT full with
    | None => verify_loop ROOT cfg K backup rest (print (OriginalNotInBackup full) w)
    | Some _ =>
      match worktree w !! enc_of full with
      | None => (w, Raised "FileNotFoundError")
      | Some artifact =>
        (print (DecryptionFailedFor (enc_of full))
           (set_worktree (λ _, <[enc_of full +:+ ".tmp" := artifact]> (worktree w)) w),
         Completed true)
      end
    end.
Proof.
  simpl. destruct (backup !! relative_to ROOT full); [|done].
  destruct (worktree w !! enc_of full) as [artifact|]; [|done].
  simpl. by rewrite decrypt_file_tmp.
Qed.

(** What a run of the verification loop does, by the way it ends. *)
Lemma verify_loop_spec cfg K (backup : gmap string (list byte)) copies w w' e :
  verify_loop ROOT cfg K backup copies w = (w', e) →
  tmpdir w' = tmpdir w ∧ staged w' = staged w ∧ commits w' = commits w ∧
  pushes w' = pushes w ∧
  ∃ skipped : list string,
    Forall (λ f, backup !! relative_to ROOT f = None) skipped ∧
    match e with
    | Completed false =>
      skipped = copies.*1 ∧ worktree w' = worktree w ∧
      stdout w' = stdout w ++ (OriginalNotInBackup <$> skipped)
    | Completed true =>
      ∃ full artifact,
        full ∈ copies.*1 ∧ is_Some (backup !! relative_to ROOT full) ∧
        worktree w !! enc_of full = Some artifact ∧
        worktree w' = <[enc_of full +:+ ".tmp" := artifact]> (worktree w) ∧
        stdout w' = stdout w ++ (OriginalNotInBackup <$> skipped)
                      ++ [DecryptionFailedFor (enc_of full)]
    | Raised _ =>
      ∃ full,
        full ∈ copies.*1 ∧ is_Some (backup !! relative_to ROOT full) ∧
        worktree w !! enc_of full = None ∧ worktree w' = worktree w ∧
        stdout w' = stdout w ++ (OriginalNotInBackup <$> skipped)
    end.
Proof.
  revert w. induction copies as [|[full tmp] rest IH]; intros w Hrun.
  - simpl in Hrun. injection Hrun as <- <-. repeat split; try done.
    exists []. split; [constructor|]. simpl. by rewrite app_nil_r.
  - rewrite verify_loop_cons in Hrun.
    destruct (backup !! relative_to ROOT full) as [orig|] eqn:Hb.
    + destruct (worktree w !! enc_of full) as [artifact|] eqn:Hart.
      * injection Hrun as <- <-. repeat split; try done.
        exists []. split; [constructor|].
        exists full, artifact. repeat split; try done.
        rewrite fmap_cons. apply list_elem_of_here.
      * injection Hrun as <- <-. repeat split; try done.
        exists []. split; [constructor|].
        exists full. rewrite fmap_cons. simpl. rewrite app_nil_r.
        repeat split; try done. apply list_elem_of_here.
    + apply IH in Hrun as (Ht & Hs & Hc & Hp & skipped & Hsk & He).
      simpl in Ht, Hs, Hc, Hp. repeat split; try done.
      exists (full :: skipped). split; [by constructor|].
      rewrite fmap_cons. destruct e as [[]|exc].
      * destruct He as (f & artifact & Hin & Hbk & Hart & Hw & Hout).
        exists f, artifact. repeat split; try done.
        -- by apply list_elem_of_further.
        -- rewrite Hout. simpl. by rewrite <- app_assoc.
      * destruct He as (-> & Hw & Hout). repeat split; try done.
        rewrite Hout. simpl. by rewrite <- app_assoc.
      * destruct He as (f & Hin & Hbk & Hart & Hw & Hout).
        exists f. repeat split; try done.
        -- by apply list_elem_of_further.
        -- rewrite Hout. simpl. by rewrite <- app_assoc.
Qed.

End Verification.

Lemma length_encode_app a b :
  length (encode (a +:+ b)) = length (encode a) + length (encode b).
Proof. by rewrite encode_app, length_app. Qed.


Lemma endswith_enc_of (full : string) : str_endswith ".enc" (enc_of full) = true.
Proof.
  unfold str_endswith, endswith, enc_of. rewrite encode_app, rev_app_distr. reflexivity.
Qed.


Section VerificationClaims.
Context `{Hashlib}.
Variable ROOT : string.


(** X22. Verification cannot succeed once an entry has a counterpart in the
    backup: the loop stops at the first such entry. *)
Lemma verify_loop_never_succeeds cfg K (backup : gmap string (list byte)) copies w w' e
    (full tmp : string) :
  verify_loop ROOT cfg K backup copies w = (w', e) →
  (full, tmp) ∈ copies →
  is_Some (backup !! relative_to ROOT full) →
  e ≠ Completed false.
Proof.
  intros Hrun Hin [orig Hb] ->.
  apply verify_loop_spec in Hrun as (_ & _ & _ & _ & skipped & Hsk & -> & _).
  rewrite Forall_forall in Hsk.
  assert (Hnone : backup !! relative_to ROOT full = None).
  { apply Hsk. apply list_elem_of_fmap. by exists (full, tmp). }
  congruence.
Qed.

(** The only path of the working tree the verification loop ever changes
    is the copy [<artifact>.tmp] of the entry it stops at, which it leaves
    behind. *)
Lemma verification_touches_only_copy cfg K (backup : gmap string (list byte)) copies w w' e :
  verify_loop ROOT cfg K backup copies w = (w', e) →
  worktree w' = worktree w ∨
  ∃ full artifact,
    full ∈ copies.*1 ∧ e = Completed true ∧
    worktree w !! enc_of full = Some artifact ∧
    worktree w' = <[enc_of full +:+ ".tmp" := artifact]> (worktree w).
Proof.
  intros Hrun.
  apply verify_loop_spec in Hrun as (_ & _ & _ & _ & skipped & _ & He).
  destruct e as [[]|exc].
  - destruct He as (full & artifact & Hin & _ & Hart & Hw & _).
    right. by exists full, artifact.
  - destruct He as (_ & Hw & _). by left.
  - destruct He as (full & _ & _ & _ & Hw & _). by left.
Qed.

End VerificationClaims.

(** ** The batch script: the encryption loop *)

Section EncryptionLoop.
Context `{Hashlib}.
Variable ROOT : string.
Variable token_bytes : nat → list byte.

(** The loop over a manifest cut in two: the second part runs from where
    the first part ended, unless the first part failed. *)
Lemma encrypt_loop_app cfg K (before after : list string) copies w :
  encrypt_loop ROOT token_bytes cfg K (before ++ after) copies w =
    let '(w1, copies1, failed) := encrypt_loop ROOT token_bytes cfg K before copies w in
    if failed then (w1, copies1, true)
    else encrypt_loop ROOT token_bytes cfg K after copies1 w1.
Proof.
  revert copies w. induction before as [|p before IH]; intros copies w; [done|].
  simpl. destruct (worktree w !! joinpath ROOT p) as [original|]; [|apply IH].
  destruct (encrypt_file _ _ _ _ _) as [ok fs]. destruct ok; simpl; [|done].
  destruct (_ !! enc_of (joinpath ROOT p)); [apply IH|done].
Qed.

(** C4 (as amended). A missing source file is skipped: when the loop
    reaches an entry whose source file does not exist, it prints a line,
    does not mark the batch failed, copies, encrypts and stages nothing for
    that entry, and goes on with the entries after it. *)
Theorem missing_file_skipped cfg K (before after : list string) (p : string)
    copies w w1 copies1 :
  encrypt_loop ROOT token_bytes cfg K before copies w = (w1, copies1, false) →
  worktree w1 !! joinpath ROOT p = None →
  encrypt_loop ROOT token_bytes cfg K (before ++ p :: after) copies w =
    encrypt_loop ROOT token_bytes cfg K after copies1
      (print (MissingFileSkipping (joinpath ROOT p)) w1).
Proof.
  intros Hbefore Hmissing. rewrite encrypt_loop_app, Hbefore.
  simpl. by rewrite Hmissing.
Qed.

(** The loop prints no verification verdict and leaves the history alone. *)
Lemma encrypt_loop_frame cfg K sensitive copies w w' copies' failed :
  encrypt_loop ROOT token_bytes cfg K sensitive copies w = (w', copies', failed) →
  commits w' = commits w ∧ pushes w' = pushes w ∧
  ∀ l, l ∈ stdout w' → l ∈ stdout w ∨ verification_failure l = false.
Proof.
  revert copies w. induction sensitive as [|p rest IH]; intros copies w Hrun.
  - injection Hrun as <- <- <-. auto.
  - simpl in Hrun. destruct (worktree w !! joinpath ROOT p) as [original|].
    + destruct (encrypt_file _ _ _ _ _) as [ok fs]. destruct ok; simpl in Hrun.
      * destruct (_ !! enc_of (joinpath ROOT p)) as [artifact|] in Hrun.
        -- apply IH in Hrun as (Hc & Hp & Hout). simpl in *.
           repeat split; try done. intros l Hl.
           destruct (Hout l Hl) as [[Hin | ->%list_elem_of_singleton]%elem_of_app|?]; auto.
        -- injection Hrun as <- <- <-. simpl. repeat split; try done. intros l Hl.
           apply elem_of_app in Hl as [Hl | ->%list_elem_of_singleton]; [|auto].
           apply elem_of_app in Hl as [Hl | ->%list_elem_of_singleton]; auto.
      * injection Hrun as <- <- <-. simpl. repeat split; try done. intros l Hl.
        apply elem_of_app in Hl as [Hl | ->%list_elem_of_singleton]; [|auto].
        apply elem_of_app in Hl as [Hl | ->%list_elem_of_singleton]; auto.
    + apply IH in Hrun as (Hc & Hp & Hout). simpl in *.
      repeat split; try done. intros l Hl.
      destruct (Hout l Hl) as [[Hin | ->%list_elem_of_singleton]%elem_of_app|?]; auto.
Qed.

Lemma restore_originals_frame copies w :
  staged (restore_originals copies w) = staged w ∧
  commits (restore_originals copies w) = commits w ∧
  pushes (restore_originals copies w) = pushes w ∧
  stdout (restore_originals copies w) = stdout w.
Proof.
  revert w. induction copies as [|[full tmp] rest IH]; intros w; [done|].
  unfold restore_originals in *. simpl.
  destruct (worktree w !! full); [apply IH|].
  destruct (tmpdir w !! tmp) as [original|]; [|apply IH].
  destruct (IH (set_worktree <[full:=original]> w)) as (? & ? & ? & ?). done.
Qed.

(** X17. A batch that fails in the encryption loop commits and pushes nothing,
    leaves nothing staged and exits with status 1. *)
Lemma failed_batch_aborts shield_config (passphrase : string) backup backups manifest w
    w1 copies :
  passphrase ≠ "" →
  encrypt_loop ROOT token_bytes (batch_config shield_config) passphrase
    (entry_path <$> filter (λ it, entry_sensitive it = true) manifest) [] 
    (set_tmpdir (λ _, ∅)
       (print (FilesToEncrypt
                 (length (entry_path <$> filter (λ it, entry_sensitive it = true) manifest)))
          (print BackupCreated (print CreatingBackup w))))
    = (w1, copies, true) →
  ∃ w', main ROOT token_bytes shield_config (Some passphrase) None (backup :: backups)
          manifest w = (ExitStatus 1, w') ∧
        commits w' = commits w ∧ pushes w' = pushes w ∧ staged w' = ∅.
Proof.
  intros Hpass Hloop. unfold main.
  destruct passphrase as [|c passphrase]; [done|].
  destruct (entry_path <$> filter _ manifest) as [|p sensitive] eqn:Hs.
  { simpl in Hloop. done. }
  rewrite Hloop. eexists. split; [reflexivity|].
  apply encrypt_loop_frame in Hloop as (Hc & Hp & _).
  destruct (restore_originals_frame copies (git_reset (print FailureDuringEncryption w1)))
    as (Hs' & Hc' & Hp' & _).
  simpl. rewrite Hs', Hc', Hp'. simpl. rewrite Hc, Hp. done.
Qed.

End EncryptionLoop.

(** ** The batch script: the whole run *)

Section Run.
Context `{Hashlib}.
Variable ROOT : string.
Variable token_bytes : nat → list byte.



End Run.

(** ** The batch script: roll-back *)

Section Rollback.
Context `{Hashlib}.
Variable ROOT : string.

Lemma restore_originals_tmpdir copies w :
  tmpdir (restore_originals copies w) = tmpdir w.
Proof.
  revert w. induction copies as [|[full tmp] rest IH]; intros w; [done|].
  unfold restore_originals in *. simpl.
  destruct (worktree w !! full); [apply IH|].
  destruct (tmpdir w !! tmp) as [original|]; [|apply IH].
  by rewrite IH.
Qed.

(** What the restore loop leaves at a path: the file that is there, or
    else the first safety copy recorded for that path. *)
Lemma restore_originals_lookup copies w (q : string) :
  worktree (restore_originals copies w) !! q =
    match worktree w !! q with
    | Some content => Some content
    | None => first_copy copies (tmpdir w) q
    end.
Proof.
  revert w. induction copies as [|[full tmp] rest IH]; intros w.
  - simpl. by destruct (worktree w !! q).
  - change (restore_originals ((full, tmp) :: rest) w) with
      (restore_originals rest
         match worktree w !! full, tmpdir w !! tmp with
         | None, Some original => set_worktree (<[full := original]>) w
         | _, _ => w
         end).
    rewrite IH. simpl.
    destruct (decide (full = q)) as [->|Hne].
    + destruct (worktree w !! q) as [content|] eqn:Hq; [by rewrite Hq|].
      destruct (tmpdir w !! tmp) as [original|] eqn:Ht.
      * simpl. by rewrite lookup_insert_eq.
      * by rewrite Hq.
    + destruct (worktree w !! full) as [content|]; [done|].
      destruct (tmpdir w !! tmp) as [original|]; [|done].
      simpl. by rewrite lookup_insert_ne.
Qed.

Lemma first_copy_none copies tmpd (q : string) :
  (∀ tmp, (q, tmp) ∉ copies) → first_copy copies tmpd q = None.
Proof.
  induction copies as [|[full tmp] rest IH]; intros Hnone; [done|].
  simpl. destruct (decide (full = q)) as [->|Hne].
  - exfalso. apply (Hnone tmp), list_elem_of_here.
  - apply IH. intros t Hin. apply (Hnone t). by apply list_elem_of_further.
Qed.

Lemma first_copy_same copies tmpd (q : string) (content : list byte) :
  (∃ tmp, (q, tmp) ∈ copies) →
  (∀ tmp, (q, tmp) ∈ copies → tmpd !! tmp = Some content) →
  first_copy copies tmpd q = Some content.
Proof.
  induction copies as [|[full tmp] rest IH]; intros [t Hin] Hall.
  - by apply not_elem_of_nil in Hin.
  - simpl. destruct (decide (full = q)) as [->|Hne].
    + by rewrite (Hall tmp) by apply list_elem_of_here.
    + apply IH.
      * apply elem_of_cons in Hin as [[= ? ?]|Hin]; [done|by exists t].
      * intros t' Hin'. apply Hall. by apply list_elem_of_further.
Qed.

Lemma joinpath_inj (p q : string) : joinpath ROOT p = joinpath ROOT q → p = q.
Proof.
  unfold joinpath. intros E. apply (inj (String.app ROOT)) in E.
  by apply (inj (String.app "/")) in E.
Qed.

Lemma path_ne_enc (full : string) : full ≠ enc_of full.
Proof.
  intros E. apply (f_equal (λ s, length (encode s))) in E.
  unfold enc_of in E. rewrite length_encode_app in E. simpl in E. lia.
Qed.

(** With the script's configuration [encrypt_file] only ever writes the
    artifact path. *)
Lemma encrypt_file_other_paths cfg (fs : gmap string (list byte)) full K rnd (q : string) :
  q ≠ enc_of full →
  (encrypt_file (batch_config cfg) fs full K rnd).2 !! q = fs !! q.
Proof.
  intros Hq. unfold encrypt_file.
  destruct (should_exclude _ _); [done|].
  destruct (is_encrypted _ _ _); [done|].
  destruct (fs !! full); [|done]. simpl. by rewrite lookup_insert_ne.
Qed.

End Rollback.

Section RollbackLoop.
Variable ROOT : string.
Variable fs0 : gmap string (list byte).

Lemma names_distinct_paths (done : list string) (p : string) :
  name p ∉ name <$> done → ∀ p', p' ∈ done → joinpath ROOT p ≠ joinpath ROOT p'.
Proof.
  intros Hname p' Hin E%joinpath_inj. subst p'.
  apply Hname, list_elem_of_fmap. by exists p.
Qed.

(** An entry whose source file is missing leaves the invariant as it is. *)
Lemma invariant_skip done w copies (p : string) w' :
  loop_invariant ROOT fs0 done w copies →
  worktree w !! joinpath ROOT p = None →
  name p ∉ name <$> done →
  (∀ p', p' ∈ done → joinpath ROOT p ≠ enc_of (joinpath ROOT p')) →
  worktree w' = worktree w → tmpdir w' = tmpdir w →
  loop_invariant ROOT fs0 (done ++ [p]) w' copies.
Proof.
  intros (I1 & I2 & I3) Hmissing Hname Halias Hwt Htmp.
  pose proof (names_distinct_paths done p Hname) as Hpaths.
  split; [|split].
  - intros full tmp Hin. destruct (I1 full tmp Hin) as (p' & Hp' & ? & ? & ? & ?).
    exists p'. rewrite Htmp. repeat split; try done. apply elem_of_app. by left.
  - intros p' [Hin | ->%list_elem_of_singleton]%elem_of_app; rewrite Hwt.
    + by apply I2.
    + split; [done|]. intros Hsome. exfalso.
      rewrite <- (I3 (joinpath ROOT p)) in Hsome.
      * rewrite Hmissing in Hsome. by destruct Hsome.
      * intros p' Hp'. split; [by apply Hpaths|by apply Halias].
  - intros q Hq. rewrite Hwt. apply I3. intros p' Hp'. apply Hq, elem_of_app. by left.
Qed.

(** An entry that was copied, encrypted and staged extends the invariant. *)
Lemma invariant_step done w copies (p : string) (original : list byte) w' :
  loop_invariant ROOT fs0 done w copies →
  worktree w !! joinpath ROOT p = Some original →
  name p ∉ name <$> done →
  (∀ p', p' ∈ done → joinpath ROOT p ≠ enc_of (joinpath ROOT p') ∧
                     joinpath ROOT p' ≠ enc_of (joinpath ROOT p)) →
  tmpdir w' = <[name p := original]> (tmpdir w) →
  worktree w' !! joinpath ROOT p = None →
  (∀ q, q ≠ joinpath ROOT p → q ≠ enc_of (joinpath ROOT p) →
        worktree w' !! q = worktree w !! q) →
  loop_invariant ROOT fs0 (done ++ [p]) w' (copies ++ [(joinpath ROOT p, name p)]).
Proof.
  intros (I1 & I2 & I3) Horig Hname Halias Htmp Hgone Hother.
  pose proof (names_distinct_paths done p Hname) as Hpaths.
  assert (Hfs0 : fs0 !! joinpath ROOT p = Some original).
  { rewrite <- I3; [done|]. intros p' Hp'. split; [by apply Hpaths|by apply Halias]. }
  split; [|split].
  - intros full tmp [Hin | [= -> ->]%list_elem_of_singleton]%elem_of_app.
    + destruct (I1 full tmp Hin) as (p' & Hp' & -> & -> & Hsome & Hcopy).
      exists p'. repeat split; try done; [apply elem_of_app; by left|].
      rewrite Htmp, lookup_insert_ne; [done|].
      intros E. apply Hname. rewrite E. apply list_elem_of_fmap. by exists p'.
    + exists p. repeat split; try done.
      * apply elem_of_app. right. by apply list_elem_of_singleton.
      * by rewrite Htmp, lookup_insert_eq, Hfs0.
  - intros p' [Hin | ->%list_elem_of_singleton]%elem_of_app.
    + destruct (I2 p' Hin) as [Hnone Hcopy]. split.
      * rewrite Hother; [done| |by apply Halias].
        intros E. by apply (Hpaths p' Hin).
      * intros Hsome. apply elem_of_app. left. by apply Hcopy.
    + split; [done|]. intros _. apply elem_of_app. right. by apply list_elem_of_singleton.
  - intros q Hq.
    destruct (Hq p) as [Hq1 Hq2]; [apply elem_of_app; right; by apply list_elem_of_singleton|].
    rewrite Hother by done. apply I3. intros p' Hp'. apply Hq, elem_of_app. by left.
Qed.

(** The roll-back after a failure at entry [p]: every entry of the
    manifest, before or after [p], has its original bytes at its path. *)
Lemma rollback_after_failure done w copies (p : string) (original : list byte)
    (rest : list string) wf :
  loop_invariant ROOT fs0 done w copies →
  worktree w !! joinpath ROOT p = Some original →
  NoDup (name <$> (done ++ p :: rest)) →
  alias_free ROOT (done ++ p :: rest) →
  tmpdir wf = <[name p := original]> (tmpdir w) →
  (∀ q, q ≠ enc_of (joinpath ROOT p) → worktree wf !! q = worktree w !! q) →
  ∀ p', p' ∈ done ++ p :: rest →
    worktree (restore_originals (copies ++ [(joinpath ROOT p, name p)]) wf)
      !! joinpath ROOT p' = fs0 !! joinpath ROOT p'.
Proof.
  intros (I1 & I2 & I3) Horig Hnd Hfree Htmp Hother p' Hp'.
  rewrite fmap_app, fmap_cons in Hnd.
  apply NoDup_app in Hnd as (Hnd_done & Hnd_cross & Hnd_rest).
  apply NoDup_cons in Hnd_rest as [Hp_rest Hnd_rest].
  assert (Hname : name p ∉ name <$> done).
  { intros Hin. apply (Hnd_cross _ Hin), list_elem_of_here. }
  pose proof (names_distinct_paths done p Hname) as Hpaths.
  assert (Hin_p : p ∈ done ++ p :: rest) by (apply elem_of_app; right; apply list_elem_of_here).
  assert (Hin_done : ∀ x, x ∈ done → x ∈ done ++ p :: rest)
    by (intros x Hx; apply elem_of_app; by left).
  assert (Hfs0 : fs0 !! joinpath ROOT p = Some original).
  { rewrite <- I3; [done|]. intros x Hx. split; [by apply Hpaths|].
    apply Hfree; auto. }
  rewrite restore_originals_lookup.
  rewrite Hother by (apply Hfree; auto).
  apply elem_of_app in Hp' as [Hdone|Hp'].
  - (* an entry processed before the failure *)
    destruct (I2 p' Hdone) as [Hgone Hcopy]. rewrite Hgone.
    assert (Hne : joinpath ROOT p ≠ joinpath ROOT p') by (by apply Hpaths).
    assert (Hnames : name p ≠ name p').
    { intros E. apply Hname. rewrite E. apply list_elem_of_fmap. by exists p'. }
    destruct (fs0 !! joinpath ROOT p') as [content|] eqn:Hc.
    + apply first_copy_same.
      * exists (name p'). apply elem_of_app. left. apply Hcopy. by eexists.
      * intros tmp [Hin | [= E _]%list_elem_of_singleton]%elem_of_app; [|done].
        destruct (I1 _ _ Hin) as (x & Hx & ->%joinpath_inj & -> & _ & Hcp).
        rewrite Htmp, lookup_insert_ne by done. by rewrite Hcp.
    + apply first_copy_none.
      intros tmp [Hin | [= E _]%list_elem_of_singleton]%elem_of_app; [|done].
      destruct (I1 _ _ Hin) as (x & Hx & _ & _ & Hsome & _).
      rewrite Hc in Hsome. by destruct Hsome.
  - apply elem_of_cons in Hp' as [->|Hrest].
    + (* the entry that failed *)
      by rewrite Horig, Hfs0.
    + (* an entry after the failure *)
      assert (Hnot_done : ∀ x, x ∈ done → joinpath ROOT p' ≠ joinpath ROOT x).
      { intros x Hx E%joinpath_inj. subst x.
        apply (Hnd_cross (name p')).
        - apply list_elem_of_fmap. by exists p'.
        - apply list_elem_of_further, list_elem_of_fmap. by exists p'. }
      assert (Hnot_p : joinpath ROOT p' ≠ joinpath ROOT p).
      { intros E%joinpath_inj. subst p'.
        apply Hp_rest, list_elem_of_fmap. by exists p. }
      assert (Hin_rest : p' ∈ done ++ p :: rest)
        by (apply elem_of_app; right; by apply list_elem_of_further).
      rewrite I3.
      2:{ intros x Hx. split; [by apply Hnot_done|]. apply Hfree; auto. }
      destruct (fs0 !! joinpath ROOT p') as [content|]; [done|].
      apply first_copy_none.
      intros tmp [Hin | [= E _]%list_elem_of_singleton]%elem_of_app; [|done].
      destruct (I1 _ _ Hin) as (x & Hx & E & _).
      by apply (Hnot_done x Hx).
Qed.

End RollbackLoop.

Section RollbackTheorem.
Context `{Hashlib}.
Variable ROOT : string.
Variable token_bytes : nat → list byte.

Lemma name_fresh (done rest : list string) (p : string) :
  NoDup (name <$> (done ++ p :: rest)) → name p ∉ name <$> done.
Proof.
  rewrite fmap_app, fmap_cons. intros (_ & Hcross & _)%NoDup_app Hin.
  apply (Hcross _ Hin), list_elem_of_here.
Qed.

Lemma encrypt_loop_rollback (fs0 : gmap string (list byte)) cfg K (rest : list string) :
  ∀ done w copies w1 copies1,
    loop_invariant ROOT fs0 done w copies →
    NoDup (name <$> (done ++ rest)) →
    alias_free ROOT (done ++ rest) →
    encrypt_loop ROOT token_bytes (batch_config cfg) K rest copies w = (w1, copies1, true) →
    ∀ p, p ∈ done ++ rest →
      worktree (restore_originals copies1 (git_reset (print FailureDuringEncryption w1)))
        !! joinpath ROOT p = fs0 !! joinpath ROOT p.
Proof.
  induction rest as [|p rest IH]; intros done w copies w1 copies1 Hinv Hnd Hfree Hrun.
  { simpl in Hrun. discriminate Hrun. }
  pose proof (name_fresh done rest p Hnd) as Hname.
  assert (Hin_p : p ∈ done ++ p :: rest) by (apply elem_of_app; right; apply list_elem_of_here).
  assert (Hin_done : ∀ x, x ∈ done → x ∈ done ++ p :: rest)
    by (intros x Hx; apply elem_of_app; by left).
  assert (Hshift : done ++ p :: rest = (done ++ [p]) ++ rest) by (by rewrite <- app_assoc).
  simpl in Hrun.
  destruct (worktree w !! joinpath ROOT p) as [original|] eqn:Horig.
  - destruct (encrypt_file _ _ _ _ _) as [ok fs] eqn:Henc.
    assert (Hfs : ∀ q, q ≠ enc_of (joinpath ROOT p) → fs !! q = worktree w !! q).
    { intros q Hq. change fs with (ok, fs).2. rewrite <- Henc.
      by rewrite encrypt_file_other_paths. }
    destruct ok; simpl in Hrun.
    + destruct (fs !! enc_of (joinpath ROOT p)) as [artifact|] eqn:Hart.
      * rewrite Hshift. eapply IH; [| by rewrite <- Hshift | by rewrite <- Hshift | exact Hrun].
        eapply invariant_step; try done.
        -- intros p' Hp'. split; apply Hfree; auto.
        -- simpl. apply lookup_delete_eq.
        -- intros q Hq1 Hq2. simpl. rewrite lookup_delete_ne by done. by apply Hfs.
      * injection Hrun as <- <-.
        eapply rollback_after_failure; try done.
    + injection Hrun as <- <-.
      eapply rollback_after_failure; try done.
  - rewrite Hshift. eapply IH; [| by rewrite <- Hshift | by rewrite <- Hshift | exact Hrun].
    eapply invariant_skip; try done.
    intros p' Hp'. apply Hfree; auto.
Qed.

(** X18. Roll-back restores every original when the file names of the sensitive
    entries are pairwise distinct and no entry's path is the artifact path of
    an entry: after a batch that fails in the encryption loop, the path of
    every sensitive entry holds what it held before the batch. *)
Lemma rollback_restores_originals shield_config (passphrase : string)
    backup backups manifest w w1 copies :
  let sensitive := entry_path <$> filter (λ it, entry_sensitive it = true) manifest in
  passphrase ≠ "" →
  NoDup (name <$> sensitive) →
  alias_free ROOT sensitive →
  encrypt_loop ROOT token_bytes (batch_config shield_config) passphrase sensitive []
    (set_tmpdir (λ _, ∅)
       (print (FilesToEncrypt (length sensitive))
          (print BackupCreated (print CreatingBackup w))))
    = (w1, copies, true) →
  ∃ w', main ROOT token_bytes shield_config (Some passphrase) None (backup :: backups)
          manifest w = (ExitStatus 1, w') ∧
        ∀ p, p ∈ sensitive → worktree w' !! joinpath ROOT p = worktree w !! joinpath ROOT p.
Proof.
  intros sensitive Hpass Hnd Hfree Hloop. unfold main.
  destruct passphrase as [|c passphrase]; [done|].
  fold sensitive. destruct sensitive as [|p0 sensitive'] eqn:Hs.
  { simpl in Hloop. done. }
  rewrite Hloop. eexists. split; [reflexivity|].
  intros p Hp. simpl.
  eapply (encrypt_loop_rollback (worktree w) shield_config _ _ []); try exact Hloop; try done.
  split; [|split].
  - intros full tmp Hin. by apply not_elem_of_nil in Hin.
  - intros x Hx. by apply not_elem_of_nil in Hx.
  - done.
Qed.

End RollbackTheorem.

(** ** The statements on concrete runs *)

(** C2 at a failing input. Two sensitive files share their file name, and
    a third entry fails in the encryption loop.  The run exits with status
    1, commits nothing and leaves nothing staged, but the roll-back writes
    the second file's bytes to the first file's path: the first original is
    lost, because the copies of the originals are keyed by file name. *)
Theorem rollback_name_collision `{Hashlib} (token_bytes : nat → list byte) :
  let r := main repo token_bytes default_config (Some sample_passphrase) None
             [collision_backup] collision_manifest collision_world in
  r.1 = ExitStatus 1 ∧ commits r.2 = [] ∧ pushes r.2 = 0 ∧ staged r.2 = ∅ ∧
  worktree collision_world !! "/repo/alice/key.pem" = Some (encode "ALICE PRIVATE KEY") ∧
  worktree collision_world !! "/repo/bob/key.pem" = Some (encode "BOB PRIVATE KEY") ∧
  worktree (r.2) !! "/repo/alice/key.pem" = Some (encode "BOB PRIVATE KEY") ∧
  worktree (r.2) !! "/repo/bob/key.pem" = Some (encode "BOB PRIVATE KEY").
Proof. vm_compute. repeat split; reflexivity. Qed.

(** C3 at a failing input: Scenario A of the specification.  The batch
    commits and pushes, the committed artifact is intact (it decrypts with
    the batch passphrase to the bytes the backup holds), and still the
    verification reports a failed decryption and the run exits with status
    1: the copy it hands to [decrypt_file] is named [*.enc.tmp], which
    [decrypt_file] refuses, and which stays behind in the working tree. *)
Theorem scenario_A_verification_fails `{Hashlib} (token_bytes : nat → list byte) :
  let r := main repo token_bytes default_config (Some sample_passphrase) None
             [scenario_A_backup] scenario_A_manifest scenario_A_world in
  r.1 = ExitStatus 1 ∧
  stdout r.2 = [CreatingBackup; BackupCreated; FilesToEncrypt 1;
                Encrypting "/repo/secrets/a.txt"; CommittedAndPushed;
                DecryptionFailedFor "/repo/secrets/a.txt.enc";
                VerificationFailedAfterPush] ∧
  pushes r.2 = 1 ∧
  scenario_A_backup !! "secrets/a.txt" = Some (encode "hello world") ∧
  ∃ artifact,
    worktree (r.2) !! "/repo/secrets/a.txt" = None ∧
    worktree (r.2) !! "/repo/secrets/a.txt.enc" = Some artifact ∧
    worktree (r.2) !! "/repo/secrets/a.txt.enc.tmp" = Some artifact ∧
    decrypt_data default_config artifact sample_passphrase = Some (encode "hello world").
Proof.
  split; [vm_compute; reflexivity|].
  split; [vm_compute; reflexivity|].
  split; [vm_compute; reflexivity|].
  split; [vm_compute; reflexivity|].
  exists (encrypt_data default_config (encode "hello world") sample_passphrase
            (token_bytes 0)).
  split; [vm_compute; reflexivity|].
  split; [vm_compute; reflexivity|].
  split; [vm_compute; reflexivity|].
  rewrite decrypt_encrypt_data by apply default_marker_well_formed.
  simpl. by rewrite layers_inverse.
Qed.

(** C4 (as stated) fails: the first entry's source file is missing, yet
    the batch is not marked failed and the entry after it is copied,
    encrypted and staged. *)
Lemma missing_file_counterexample :
  let r := encrypt_loop (H := stand_in_hashlib) repo sample_token_bytes
             (batch_config default_config) sample_passphrase
             ["secrets/gone.txt"; "secrets/a.txt"] [] scenario_A_world in
  worktree scenario_A_world !! joinpath repo "secrets/gone.txt" = None ∧
  r.2 = false ∧
  (r.1).2 = [("/repo/secrets/a.txt", "a.txt")] ∧
  stdout (r.1).1 = [MissingFileSkipping "/repo/secrets/gone.txt";
                  Encrypting "/repo/secrets/a.txt"] ∧
  staged (r.1).1 = {[ "/repo/secrets/a.txt.enc"; "/repo/secrets/a.txt" ]} ∧
  worktree (r.1).1 !! "/repo/secrets/a.txt.enc" =
    Some (encrypt_data (H := stand_in_hashlib) default_config (encode "hello world")
            sample_passphrase (sample_token_bytes 0)).
Proof. vm_compute. repeat split; reflexivity. Qed.

Lemma missing_file_skipped_witness :
  encrypt_loop (H := stand_in_hashlib) repo sample_token_bytes
    (batch_config default_config) sample_passphrase [] [] scenario_A_world
    = (scenario_A_world, [], false) ∧
  worktree scenario_A_world !! joinpath repo "secrets/gone.txt" = None ∧
  encrypt_loop (H := stand_in_hashlib) repo sample_token_bytes
    (batch_config default_config) sample_passphrase
    ([] ++ "secrets/gone.txt" :: ["secrets/a.txt"]) [] scenario_A_world =
  encrypt_loop (H := stand_in_hashlib) repo sample_token_bytes
    (batch_config default_config) sample_passphrase ["secrets/a.txt"] []
    (print (MissingFileSkipping (joinpath repo "secrets/gone.txt")) scenario_A_world).
Proof.
  split; [reflexivity|]. split; [vm_compute; reflexivity|].
  apply (missing_file_skipped (H := stand_in_hashlib)).
  - reflexivity.
  - vm_compute. reflexivity.
Defined.




(** * Further properties *)

(** ** The cipher engine: what a package is *)

Lemma hex_digit_to_N n :
  (n < 16)%N →
  Byte.to_N (hex_digit n) = if (n <? 10)%N then (48 + n)%N else (87 + n)%N.
Proof.
  intros Hn. unfold hex_digit.
  destruct (N.ltb_spec n 10); rewrite to_N_byte_of_N; apply N.mod_small; lia.
Qed.

Lemma hex_digit_inj n m : (n < 16)%N → (m < 16)%N → hex_digit n = hex_digit m → n = m.
Proof.
  intros Hn Hm E. apply (f_equal Byte.to_N) in E.
  rewrite !hex_digit_to_N in E by done.
  destruct (N.ltb_spec n 10), (N.ltb_spec m 10); lia.
Qed.

Lemma hexlify_cons b rnd :
  hexlify (b :: rnd) =
    hex_digit (Byte.to_N b / 16) :: hex_digit (Byte.to_N b mod 16) :: hexlify rnd.
Proof. reflexivity. Qed.

Lemma hexlify_inj rnd1 rnd2 : hexlify rnd1 = hexlify rnd2 → rnd1 = rnd2.
Proof.
  revert rnd2. induction rnd1 as [|a rnd1 IH]; intros [|b rnd2] E; try done.
  rewrite !hexlify_cons in E. injection E as Hhi Hlo E.
  pose proof (to_N_lt_256 a). pose proof (to_N_lt_256 b).
  apply hex_digit_inj in Hhi; [|apply N.Div0.div_lt_upper_bound; lia..].
  apply hex_digit_inj in Hlo; [|apply N.mod_lt; lia..].
  f_equal; [|by apply IH]. apply to_N_inj.
  rewrite (N.div_mod (Byte.to_N a) 16), (N.div_mod (Byte.to_N b) 16) by lia.
  by rewrite Hhi, Hlo.
Qed.

Lemma find_sep_sound l pre post : find_sep l = Some (pre, post) → l = pre ++ sep ++ post.
Proof.
  revert pre. induction l as [|a l IH]; intros pre E; [done|].
  destruct l as [|b rest]; [done|].
  rewrite find_sep_cons2 in E.
  destruct (decide (a = colon ∧ b = colon)) as [[-> ->]|_].
  - by injection E as <- <-.
  - destruct (find_sep (b :: rest)) as [[pre' post']|] eqn:E'; [|done].
    injection E as <- <-. by rewrite (IH pre' eq_refl).
Qed.

Section EngineFurther.
Context `{Hashlib}.

Lemma layer3_imap buf : layer3 buf = imap (λ i b, bxor b (position_factor i)) buf.
Proof. rewrite layer3_pass. apply pass_imap, covers_seq. Qed.

Lemma encrypt_data_header cfg P K rnd :
  encrypt_data cfg P K rnd =
    package_header cfg version (hexlify rnd) ++ ciphertext_of P K rnd.
Proof.
  unfold encrypt_data, package_header, ciphertext_of.
  rewrite encode_token_hex. by rewrite <- !app_assoc.
Qed.

(** X1. The package in closed form: the header, then for every plaintext byte
    [i] of [n] the byte XOR [key[i % 64]] XOR [key[(n - 1 - i) % 64]] XOR
    [(i + 1) % 256]. *)
Theorem package_closed_form cfg (P : list byte) (K : string) (rnd : list byte) :
  encrypt_data cfg P K rnd =
    package_header cfg version (hexlify rnd) ++
    imap (λ i b,
            bxor b (bxor (keystream (derive_encryption_key K (token_hex rnd)) (length P) i)
                         (position_factor i))) P.
Proof.
  rewrite encrypt_data_header. f_equal. unfold ciphertext_of.
  rewrite layer3_imap, layer2_imap, layer1_imap, !length_imap.
  apply list_eq. intros i. rewrite !list_lookup_imap.
  destruct (P !! i) as [b|]; simpl; [|done]. f_equal.
  unfold keystream. bxor_ring.
Qed.

(** X2. What [decrypt_data] does with an input that has the four fields: the
    version field is not looked at, a salt that is not UTF-8 gives [None],
    and otherwise the passes are run on the last field with the key derived
    from the salt text. *)
Theorem decrypt_data_framed cfg (v salt_bytes ct : list byte) (K : string) :
  marker_well_formed cfg →
  find_sep (v ++ [colon]) = None →
  find_sep (salt_bytes ++ [colon]) = None →
  decrypt_data cfg (package_header cfg v salt_bytes ++ ct) K =
    if utf8_valid salt_bytes then
      let key := derive_encryption_key K (string_of_list_byte salt_bytes) in
      Some (layer1 key (layer2 key (layer3 ct)))
    else None.
Proof.
  intros [Hutf Hm] Hv Hs. unfold decrypt_data, package_header, split.
  rewrite <- !app_assoc.
  rewrite (find_sep_field (encode (encryption_marker cfg))) by done.
  rewrite (find_sep_field v) by done.
  rewrite (find_sep_field salt_bytes) by done.
  rewrite decode_encode by done.
  rewrite decide_False by (intros Hne; by apply Hne).
  unfold decode. by destruct (utf8_valid salt_bytes).
Qed.

(** X3. What [decrypt_data] accepts: only an input that starts with the
    configured marker and [::] and has two more [::]-separated fields before
    the ciphertext, the second of them valid UTF-8; the result is as long as
    the last field. *)
Theorem decrypt_data_accepts cfg (pkg : list byte) (K : string) (pt : list byte) :
  decrypt_data cfg pkg K = Some pt →
  ∃ v salt_bytes ct,
    pkg = package_header cfg v salt_bytes ++ ct ∧
    utf8_valid salt_bytes = true ∧
    length pt = length ct.
Proof.
  unfold decrypt_data, split. intros E.
  destruct (find_sep pkg) as [[m r1]|] eqn:E1; [|done].
  destruct (find_sep r1) as [[v r2]|] eqn:E2; [|done].
  destruct (find_sep r2) as [[s ct]|] eqn:E3; [|done].
  apply find_sep_sound in E1, E2, E3. subst pkg r1 r2.
  destruct (decode m) as [t|] eqn:Hd; [|done].
  destruct (decide (t ≠ encryption_marker cfg)) as [|Heq]; [done|].
  apply dec_stable in Heq. subst t. apply decode_Some_encode in Hd. subst m.
  unfold decode in E. destruct (utf8_valid s) eqn:Hs; [|done].
  injection E as <-. exists v, s, ct. split; [|split; [done|]].
  - unfold package_header. by rewrite <- !app_assoc.
  - by rewrite length_layer1, length_layer2, length_layer3.
Qed.

Lemma decrypt_data_prefix cfg (pkg : list byte) (K : string) :
  is_Some (decrypt_data cfg pkg K) →
  take (length (encode (encryption_marker cfg))) pkg = encode (encryption_marker cfg).
Proof.
  intros [pt Hpt]. unfold decrypt_data, split in Hpt.
  destruct (find_sep pkg) as [[m r1]|] eqn:E1; [|done].
  destruct (find_sep r1) as [[v r2]|]; [|done].
  destruct (find_sep r2) as [[s ct]|]; [|done].
  apply find_sep_sound in E1. subst pkg.
  destruct (decode m) as [t|] eqn:Hd; [|done].
  destruct (decide (t ≠ encryption_marker cfg)) as [|Heq]; [done|].
  apply dec_stable in Heq. subst t. apply decode_Some_encode in Hd. subst m.
  by rewrite take_app_length.
Qed.

(** X4. Tamper sensitivity: changing any byte of the marker field of a package
    makes [decrypt_data] return [None], under every passphrase. *)
Theorem marker_tamper_rejected cfg (P : list byte) (K K' : string) (rnd : list byte)
    (i : nat) (b : byte) :
  i < length (encode (encryption_marker cfg)) →
  encode (encryption_marker cfg) !! i ≠ Some b →
  decrypt_data cfg (<[i := b]> (encrypt_data cfg P K rnd)) K' = None.
Proof.
  intros Hi Hb.
  destruct (decrypt_data cfg (<[i:=b]> (encrypt_data cfg P K rnd)) K') as [pt|] eqn:E;
    [|done].
  exfalso. apply Hb.
  assert (Hpre := decrypt_data_prefix cfg _ K' (mk_is_Some _ _ E)).
  rewrite <- Hpre. rewrite lookup_take_lt by done.
  apply list_lookup_insert_eq. unfold encrypt_data. rewrite length_app. lia.
Qed.

(** X5. A package made under one marker is rejected under a configuration with
    another marker. *)
Theorem other_marker_rejected cfg1 cfg2 (P : list byte) (K K' : string) (rnd : list byte) :
  find_sep (encode (encryption_marker cfg1) ++ [colon]) = None →
  encryption_marker cfg1 ≠ encryption_marker cfg2 →
  decrypt_data cfg2 (encrypt_data cfg1 P K rnd) K' = None.
Proof.
  intros Hfield Hne. unfold decrypt_data, encrypt_data.
  rewrite split_package; [|done|rewrite encode_token_hex; apply hexlify_field].
  destruct (decode (encode (encryption_marker cfg1))) as [t|] eqn:Hd; [|done].
  rewrite decide_True; [done|].
  intros ->. apply decode_Some_encode in Hd.
  apply Hne. apply (f_equal string_of_list_byte) in Hd.
  unfold encode in Hd. by rewrite !string_of_list_byte_of_string in Hd.
Qed.

(** X6. Salt freshness: two draws that differ give two different packages, and
    each of them decrypts to the plaintext. *)
Theorem salt_freshness cfg (P : list byte) (K : string) (rnd1 rnd2 : list byte) :
  marker_well_formed cfg →
  rnd1 ≠ rnd2 →
  encrypt_data cfg P K rnd1 ≠ encrypt_data cfg P K rnd2 ∧
  decrypt_data cfg (encrypt_data cfg P K rnd1) K = Some P ∧
  decrypt_data cfg (encrypt_data cfg P K rnd2) K = Some P.
Proof.
  intros Hm Hne. split.
  - intros E. apply Hne, hexlify_inj.
    rewrite !encrypt_data_header in E. unfold package_header in E.
    rewrite <- !app_assoc in E. do 4 apply app_inv_head in E.
    apply app_inj_2 in E as [E _]; [done|].
    unfold ciphertext_of. simpl.
    by rewrite !length_layer3, !length_layer2, !length_layer1.
  - split; rewrite decrypt_encrypt_data by done; simpl; by rewrite layers_inverse.
Qed.

End EngineFurther.

Section EngineLeaks.
Context `{Hashlib}.

Lemma keystream_mirror key (n i : nat) :
  i < n → keystream key n (n - 1 - i) = keystream key n i.
Proof.
  intros Hi. unfold keystream.
  replace (n - (n - 1 - i) - 1) with i by lia.
  replace (n - i - 1) with (n - 1 - i) by lia. apply bxor_comm.
Qed.

Lemma ciphertext_lookup (P : list byte) (K : string) (rnd : list byte) (i : nat) (b : byte) :
  P !! i = Some b →
  ciphertext_of P K rnd !! i =
    Some (bxor b (bxor (keystream (derive_encryption_key K (token_hex rnd)) (length P) i)
                       (position_factor i))).
Proof.
  intros Hb. unfold ciphertext_of.
  rewrite layer3_imap, layer2_imap, layer1_imap, !length_imap, !list_lookup_imap, Hb.
  simpl. f_equal. unfold keystream. bxor_ring.
Qed.

(** X7. The XOR of the ciphertext bytes at two mirrored positions [i] and
    [n - 1 - i] does not depend on the passphrase or the salt: it is the XOR
    of the two plaintext bytes and of the two position factors. *)
Theorem mirrored_bytes_leak (P : list byte) (K : string) (rnd : list byte) (i : nat) :
  i < length P →
  let c := ciphertext_of P K rnd in
  let j := length P - 1 - i in
  bxor (c !!! i) (c !!! j) =
    bxor (bxor (P !!! i) (P !!! j)) (bxor (position_factor i) (position_factor j)).
Proof.
  intros Hi c j.
  assert (Hj : j < length P) by (unfold j; lia).
  destruct (lookup_lt_is_Some_2 P i Hi) as [a Ha].
  destruct (lookup_lt_is_Some_2 P j Hj) as [b Hb].
  rewrite (list_lookup_total_correct P i a Ha), (list_lookup_total_correct P j b Hb).
  rewrite (list_lookup_total_correct c i _ (ciphertext_lookup P K rnd i a Ha)).
  rewrite (list_lookup_total_correct c j _ (ciphertext_lookup P K rnd j b Hb)).
  unfold j at 1. rewrite keystream_mirror by done. bxor_ring.
Qed.

(** X8. Malleability: XORing a mask into the ciphertext field of a package
    XORs the same mask into what [decrypt_data] returns; nothing detects the
    change. *)
Theorem ciphertext_malleable cfg (P : list byte) (K : string) (rnd mask : list byte) :
  marker_well_formed cfg →
  length mask = length P →
  encrypt_data cfg P K rnd =
    package_header cfg version (hexlify rnd) ++ ciphertext_of P K rnd ∧
  decrypt_data cfg
    (package_header cfg version (hexlify rnd)
       ++ zip_with bxor (ciphertext_of P K rnd) mask) K
  = Some (zip_with bxor P mask).
Proof.
  intros [Hutf Hm] Hlen. split; [apply encrypt_data_header|].
  unfold decrypt_data, package_header.
  rewrite <- !app_assoc.
  rewrite split_package; [|done|apply hexlify_field].
  rewrite decode_encode by done.
  rewrite decide_False by (intros Hne; by apply Hne).
  unfold decode. rewrite hexlify_utf8. f_equal.
  change (string_of_list_byte (hexlify rnd)) with (token_hex rnd).
  set (key := derive_encryption_key K (token_hex rnd)).
  assert (Hclen : length (ciphertext_of P K rnd) = length P).
  { unfold ciphertext_of. by rewrite length_layer3, length_layer2, length_layer1. }
  rewrite layer1_imap, layer2_imap, layer3_imap, !length_imap.
  rewrite length_zip_with, Hclen, Hlen, Nat.min_id.
  apply list_eq. intros i. rewrite !list_lookup_imap, !lookup_zip_with.
  destruct (P !! i) as [b|] eqn:Hb.
  - rewrite (ciphertext_lookup P K rnd i b Hb). simpl.
    destruct (mask !! i) as [d|]; simpl; [|done]. f_equal.
    fold key. unfold keystream, position_factor. bxor_ring.
  - assert (ciphertext_of P K rnd !! i = None) as ->; [|done].
    apply lookup_ge_None. rewrite Hclen. by apply lookup_ge_None.
Qed.

End EngineLeaks.

(** ** The file codec: paths *)

Lemma string_length_app (a b : string) :
  String.length (a +:+ b) = String.length a + String.length b.
Proof. induction a as [|c a IH]; simpl; [done|]. by rewrite IH. Qed.

Lemma substring_prefix (a b : string) : String.substring 0 (String.length a) (a +:+ b) = a.
Proof.
  induction a as [|c a IH]; simpl.
  - by destruct b.
  - by rewrite IH.
Qed.

Lemma has_slash_app (a b : string) : has_slash (a +:+ b) = has_slash a || has_slash b.
Proof.
  induction a as [|c a IH]; simpl; [done|]. rewrite IH. by rewrite orb_assoc.
Qed.

Lemma name_unfold (c : ascii) (s : string) :
  name (String c s) = if has_slash (String c s) then name s else String c s.
Proof. reflexivity. Qed.

Lemma name_app (a s : string) : has_slash s = false → name s = s → name (a +:+ s) = name a +:+ s.
Proof.
  intros Hs Hn. induction a as [|c a IH]; [done|].
  change (String c a +:+ s) with (String c (a +:+ s)).
  rewrite !name_unfold.
  change (has_slash (String c (a +:+ s))) with (has_slash (String c a +:+ s)).
  rewrite has_slash_app, Hs, orb_false_r.
  destruct (has_slash (String c a)); [exact IH|done].
Qed.

(** A path is a directory part followed by its name. *)
Lemma name_suffix (p : string) : ∃ d, p = d +:+ name p.
Proof.
  induction p as [|c p [d IH]]; [by exists ""|].
  rewrite name_unfold. destruct (has_slash (String c p)).
  - exists (String c d).
    change (String c d +:+ name p) with (String c (d +:+ name p)). by rewrite <- IH.
  - by exists "".
Qed.

Lemma string_app_nil_inv (a s : string) : a +:+ s = s → a = "".
Proof.
  intros E. apply (f_equal String.length) in E. rewrite string_length_app in E.
  destruct a; [done|]. simpl in E. lia.
Qed.

Lemma stem_path_enc_of (p : string) : name p ≠ "" → stem_path (enc_of p) = p.
Proof.
  intros Hname. unfold stem_path, enc_of.
  rewrite name_app by done.
  rewrite decide_False by (intros E; by apply string_app_nil_inv in E).
  rewrite string_length_app. simpl. rewrite Nat.add_sub.
  apply substring_prefix.
Qed.

Lemma endswith_name (suffix p : string) :
  str_endswith suffix (name p) = true → str_endswith suffix p = true.
Proof.
  destruct (name_suffix p) as [d Hd]. intros Hs. rewrite Hd.
  unfold str_endswith, endswith in *. rewrite encode_app, rev_app_distr.
  revert Hs. generalize (rev (encode suffix)) (rev (encode (name p))).
  intros pre l. revert l. induction pre as [|a pre IH]; intros [|b l]; simpl; try done.
  intros [? ?]%andb_true_iff. apply andb_true_iff. split; [done|by apply IH].
Qed.

Lemma startswith_length needle hay :
  startswith needle hay = true → (length needle ≤ length hay)%nat.
Proof.
  revert hay. induction needle as [|a needle IH]; intros [|b hay]; simpl; try done; [lia|].
  intros [_ Hs]%andb_true_iff. apply IH in Hs. lia.
Qed.

Lemma contains_length needle hay :
  contains needle hay = true → (length needle ≤ length hay)%nat.
Proof.
  induction hay as [|b hay IH]; rewrite contains_unfold.
  - rewrite orb_false_r. apply startswith_length.
  - intros [Hs | Hc]%orb_true_iff; [by apply startswith_length|].
    apply IH in Hc. simpl. lia.
Qed.

(** ** The file codec: what the two operations change *)

Section CodecFurther.
Context `{Hashlib}.

(** X9. [encrypt_file] changes nothing when it returns [False]; it returns
    [True] only for a file that exists; it never touches a path other than
    the file and its artifact; and it leaves the file itself alone unless
    deletion is configured and this is no dry run. *)
Theorem encrypt_file_frame cfg (fs : gmap string (list byte)) (p K : string) (rnd : list byte) :
  let r := encrypt_file cfg fs p K rnd in
  (r.1 = false → r.2 = fs) ∧
  (r.1 = true → is_Some (fs !! p)) ∧
  (∀ q, q ≠ enc_of p → q ≠ p → r.2 !! q = fs !! q) ∧
  (delete_original_after_encrypt cfg && negb (dry_run cfg) = false → r.2 !! p = fs !! p).
Proof.
  unfold encrypt_file. destruct (should_exclude cfg p); [done|].
  destruct (is_encrypted cfg fs p) eqn:Hmarked.
  { simpl. repeat split; try done. intros _. unfold is_encrypted in Hmarked.
    destruct (fs !! p); [by eexists|done]. }
  destruct (fs !! p) as [content|] eqn:Hp; [|done]. simpl.
  repeat split; try done.
  - intros q Hq1 Hq2.
    destruct (delete_original_after_encrypt cfg && negb (dry_run cfg)).
    + by rewrite lookup_delete_ne, lookup_insert_ne.
    + by rewrite lookup_insert_ne.
  - intros ->. rewrite lookup_insert_ne; [done|]. intros E. symmetry in E.
    by apply path_ne_enc in E.
Qed.


(** X11. File round trip: encrypting a file and then decrypting its artifact
    with the same passphrase puts the original bytes back at the file's path
    and removes the artifact, with every other path as it was; when there was
    no file at the artifact path before, the file system is exactly as it
    was. *)
Theorem file_round_trip cfg (fs : gmap string (list byte)) (p K : string)
    (rnd content : list byte) :
  marker_well_formed cfg →
  should_exclude cfg p = false →
  is_encrypted cfg fs p = false →
  fs !! p = Some content →
  name p ≠ "" →
  let r1 := encrypt_file cfg fs p K rnd in
  let r2 := decrypt_file cfg r1.2 (enc_of p) K in
  r1.1 = true ∧ r2.1 = true ∧
  r2.2 !! p = Some content ∧ r2.2 !! enc_of p = None ∧
  (∀ q, q ≠ p → q ≠ enc_of p → r2.2 !! q = fs !! q) ∧
  (fs !! enc_of p = None → r2.2 = fs).
Proof.
  intros Hm Hexcl Hmark Hp Hname r1 r2.
  assert (Hne : p ≠ enc_of p) by apply path_ne_enc.
  assert (Hr1 : r1.1 = true ∧
                r1.2 !! enc_of p = Some (encrypt_data cfg content K rnd) ∧
                ∀ q, q ≠ enc_of p → q ≠ p → r1.2 !! q = fs !! q).
  { unfold r1, encrypt_file. rewrite Hexcl, Hmark, Hp. simpl.
    destruct (delete_original_after_encrypt cfg && negb (dry_run cfg)).
    - split; [done|]. split.
      + rewrite lookup_delete_ne by done. apply lookup_insert_eq.
      + intros q ? ?. by rewrite lookup_delete_ne, lookup_insert_ne.
    - split; [done|]. split; [apply lookup_insert_eq|].
      intros q ? ?. by rewrite lookup_insert_ne. }
  destruct Hr1 as (Hok1 & Hart & Hother).
  assert (Hr2 : r2 = (true, delete (enc_of p) (<[p := content]> r1.2))).
  { unfold r2, decrypt_file. rewrite endswith_enc_of, Hart. simpl.
    rewrite decrypt_encrypt_data by done. simpl.
    by rewrite layers_inverse, stem_path_enc_of. }
  assert (Hall : ∀ q, q ≠ enc_of p → r2.2 !! q = fs !! q).
  { intros q Hq. rewrite Hr2. simpl. rewrite lookup_delete_ne by done.
    destruct (decide (q = p)) as [->|Hqp].
    - by rewrite lookup_insert_eq.
    - rewrite lookup_insert_ne by done. by apply Hother. }
  split; [done|]. split; [by rewrite Hr2|].
  split; [by rewrite Hall, Hp|].
  split; [rewrite Hr2; apply lookup_delete_eq|].
  split; [intros q _ Hq; by apply Hall|].
  intros Hfree. apply map_eq. intros q.
  destruct (decide (q = enc_of p)) as [->|Hq]; [|by apply Hall].
  rewrite Hr2, Hfree. apply lookup_delete_eq.
Qed.

(** X12. An artifact whose file name is exactly [.enc] is its own stem:
    [decrypt_file] writes the plaintext over the artifact, removes that very
    file and returns [True]; the decrypted bytes are nowhere on disk. *)
Theorem decrypt_file_dot_enc cfg (fs : gmap string (list byte)) (p K : string)
    (pkg pt : list byte) :
  name p = ".enc" →
  fs !! p = Some pkg →
  decrypt_data cfg pkg K = Some pt →
  decrypt_file cfg fs p K = (true, delete p fs).
Proof.
  intros Hname Hp Hdec. unfold decrypt_file.
  rewrite (endswith_name ".enc" p) by (by rewrite Hname).
  simpl. rewrite Hp, Hdec. unfold stem_path. rewrite decide_True by done.
  by rewrite delete_insert_eq.
Qed.

(** X13. With a marker of at most 100 bytes, the artifact [encrypt_file] writes
    is recognised as encrypted, so that running [encrypt_file] on the
    artifact changes nothing. *)
Theorem artifact_recognised cfg (fs : gmap string (list byte)) (p K K' : string)
    (rnd rnd' content : list byte) :
  (length (encode (encryption_marker cfg)) ≤ 100)%nat →
  should_exclude cfg p = false →
  is_encrypted cfg fs p = false →
  fs !! p = Some content →
  let fs1 := (encrypt_file cfg fs p K rnd).2 in
  is_encrypted cfg fs1 (enc_of p) = true ∧
  encrypt_file cfg fs1 (enc_of p) K' rnd' = (negb (should_exclude cfg (enc_of p)), fs1).
Proof.
  intros Hlen Hexcl Hmark Hp fs1.
  assert (Hne : p ≠ enc_of p) by apply path_ne_enc.
  assert (Hart : fs1 !! enc_of p = Some (encrypt_data cfg content K rnd)).
  { unfold fs1, encrypt_file. rewrite Hexcl, Hmark, Hp. simpl.
    destruct (delete_original_after_encrypt cfg && negb (dry_run cfg)).
    - rewrite lookup_delete_ne by done. apply lookup_insert_eq.
    - apply lookup_insert_eq. }
  assert (Hrec : is_encrypted cfg fs1 (enc_of p) = true).
  { unfold is_encrypted. rewrite Hart. unfold encrypt_data.
    apply (contains_header []). simpl. lia. }
  split; [done|]. unfold encrypt_file.
  destruct (should_exclude cfg (enc_of p)); [done|]. by rewrite Hrec.
Qed.

(** X14. A marker longer than 100 bytes is never found in the 100-byte header:
    no file is ever classified as encrypted. *)
Theorem long_marker_never_detected cfg (fs : gmap string (list byte)) (p : string) :
  (100 < length (encode (encryption_marker cfg)))%nat →
  is_encrypted cfg fs p = false.
Proof.
  intros Hlong. unfold is_encrypted. destruct (fs !! p) as [content|]; [|done].
  destruct (contains _ _) eqn:Hc; [|done].
  apply contains_length in Hc. rewrite length_take in Hc. lia.
Qed.

(** X15. Exclusion is by substring: a path that holds the text of a configured
    pattern anywhere, also inside a file name, is excluded, and
    [encrypt_file] refuses it without touching the file system. *)
Theorem exclusion_by_substring cfg (fs : gmap string (list byte)) (pattern a b K : string)
    (rnd : list byte) :
  pattern ∈ exclude_patterns cfg →
  should_exclude cfg (a +:+ pattern +:+ b) = true ∧
  encrypt_file cfg fs (a +:+ pattern +:+ b) K rnd = (false, fs).
Proof.
  intros Hin.
  assert (Hex : should_exclude cfg (a +:+ pattern +:+ b) = true).
  { unfold should_exclude. apply orb_true_iff. left. apply existsb_exists.
    exists pattern. split; [by apply list_elem_of_In|].
    unfold str_in. rewrite !encode_app. apply contains_app. }
  split; [done|]. unfold encrypt_file. by rewrite Hex.
Qed.

End CodecFurther.

(** ** The batch script: how a run can end *)

Section RunFurther.
Context `{Hashlib}.
Variable ROOT : string.
Variable token_bytes : nat → list byte.

Lemma no_sensitive_entries (manifest : list ManifestEntry) :
  Forall (λ it, entry_sensitive it = false) manifest →
  entry_path <$> filter (λ it, entry_sensitive it = true) manifest = [].
Proof.
  induction 1 as [|it manifest Hit _ IH]; [done|].
  rewrite filter_cons_False by (by rewrite Hit). exact IH.
Qed.

(** X16. Abort before touching anything: without a passphrase (an empty
    command-line passphrase counts as none, and the environment is then not
    consulted), without a backup, or without a sensitive entry, the script
    only prints (in the last two cases after the backup step, whose archives
    are the argument [backups]); the working tree, the staging area and the
    history are as they were.  The exit status is 0 only in the last of these
    cases. *)
Theorem batch_aborts_untouched shield_config (argv1 env : option string)
    (backups : list (gmap string (list byte))) (manifest : list ManifestEntry) w :
  let passphrase := match argv1 with Some a => Some a | None => env end in
  passphrase = None ∨ passphrase = Some "" ∨ backups = [] ∨
    Forall (λ it, entry_sensitive it = false) manifest →
  ∃ code w',
    main ROOT token_bytes shield_config argv1 env backups manifest w = (ExitStatus code, w') ∧
    worktree w' = worktree w ∧ tmpdir w' = tmpdir w ∧ staged w' = staged w ∧
    commits w' = commits w ∧ pushes w' = pushes w ∧
    (code = 0 ↔ passphrase ≠ None ∧ passphrase ≠ Some "" ∧ backups ≠ []).
Proof.
  intros passphrase Hcase. unfold main. fold passphrase.
  destruct passphrase as [[|c K]|] eqn:Hp.
  1,3: eexists 1, _; split; [reflexivity|]; repeat split; try done;
       intros (? & ? & ?); done.
  destruct backups as [|backup_zip backups].
  { eexists 1, _. split; [reflexivity|]. repeat split; try done.
    intros (? & ? & ?); done. }
  destruct Hcase as [?|[?|[?|Hnone]]]; try done.
  rewrite (no_sensitive_entries manifest Hnone).
  eexists 0, _. split; [reflexivity|]. repeat split; done.
Qed.

Lemma encrypt_file_keeps cfg (fs : gmap string (list byte)) (p K : string) (rnd : list byte)
    (q : string) :
  q ≠ p → is_Some (fs !! q) → is_Some ((encrypt_file cfg fs p K rnd).2 !! q).
Proof.
  intros Hq Hsome. unfold encrypt_file.
  destruct (should_exclude cfg p); [done|].
  destruct (is_encrypted cfg fs p); [done|].
  destruct (fs !! p); [|done]. simpl.
  assert (is_Some (<[enc_of p := encrypt_data cfg l K rnd]> fs !! q)).
  { destruct (decide (enc_of p = q)) as [->|Hne].
    - rewrite lookup_insert_eq. by eexists.
    - by rewrite lookup_insert_ne. }
  destruct (delete_original_after_encrypt cfg && negb (dry_run cfg)); [|done].
  by rewrite lookup_delete_ne.
Qed.

Lemma encrypt_loop_copies_grow cfg K sensitive copies w w' copies' failed :
  encrypt_loop ROOT token_bytes cfg K sensitive copies w = (w', copies', failed) →
  ∀ x, x ∈ copies → x ∈ copies'.
Proof.
  revert copies w. induction sensitive as [|p rest IH]; intros copies w Hrun x Hx.
  - by injection Hrun as <- <- <-.
  - simpl in Hrun. destruct (worktree w !! joinpath ROOT p) as [original|].
    + destruct (encrypt_file _ _ _ _ _) as [ok fs]. destruct ok; simpl in Hrun.
      * destruct (fs !! enc_of (joinpath ROOT p)) as [artifact|].
        -- eapply IH; [exact Hrun|]. apply elem_of_app. by left.
        -- injection Hrun as <- <- <-. apply elem_of_app. by left.
      * injection Hrun as <- <- <-. apply elem_of_app. by left.
    + by eapply IH.
Qed.

(** X19. No file leaves the working tree without a record: every path that held
    a file before the encryption loop and holds none after it has a pair in
    [orig_copies], whatever the configuration and however the loop ended. *)
Theorem removed_files_are_recorded cfg K (sensitive : list string) copies w w' copies'
    failed (q : string) :
  encrypt_loop ROOT token_bytes cfg K sensitive copies w = (w', copies', failed) →
  is_Some (worktree w !! q) →
  worktree w' !! q = None →
  ∃ tmp, (q, tmp) ∈ copies'.
Proof.
  revert copies w. induction sensitive as [|p rest IH]; intros copies w Hrun Hsome Hgone.
  { injection Hrun as <- <- <-. rewrite Hgone in Hsome. by destruct Hsome. }
  simpl in Hrun. destruct (worktree w !! joinpath ROOT p) as [original|] eqn:Horig.
  2:{ eapply IH; [exact Hrun|exact Hsome|exact Hgone]. }
  destruct (decide (q = joinpath ROOT p)) as [->|Hq].
  { exists (name p).
    assert (Hin : (joinpath ROOT p, name p) ∈ copies ++ [(joinpath ROOT p, name p)])
      by (apply elem_of_app; right; apply list_elem_of_here).
    destruct (encrypt_file _ _ _ _ _) as [ok fs]. destruct ok; simpl in Hrun.
    - destruct (fs !! enc_of (joinpath ROOT p)) as [artifact|].
      + by eapply encrypt_loop_copies_grow.
      + by injection Hrun as <- <- <-.
    - by injection Hrun as <- <- <-. }
  pose proof (encrypt_file_keeps cfg (worktree w) (joinpath ROOT p) K
                (token_bytes (length copies)) q Hq Hsome) as Hkeep.
  destruct (encrypt_file _ _ _ _ _) as [ok fs]. simpl in Hkeep.
  destruct ok; simpl in Hrun.
  - destruct (fs !! enc_of (joinpath ROOT p)) as [artifact|].
    + eapply IH; [exact Hrun| |exact Hgone]. simpl. by rewrite lookup_delete_ne.
    + injection Hrun as <- <- <-. simpl in Hgone. rewrite Hgone in Hkeep. by destruct Hkeep.
  - injection Hrun as <- <- <-. simpl in Hgone. rewrite Hgone in Hkeep. by destruct Hkeep.
Qed.

(** X20. The restore loop of the roll-back only fills gaps: a file that is
    there is never overwritten, a missing path without a recorded copy stays
    missing, and the temporary directory is not changed. *)
Theorem restore_only_fills_gaps (copies : list (string * string)) w (q : string) :
  (∀ content, worktree w !! q = Some content →
              worktree (restore_originals copies w) !! q = Some content) ∧
  ((∀ tmp, (q, tmp) ∉ copies) →
   worktree (restore_originals copies w) !! q = worktree w !! q) ∧
  tmpdir (restore_originals copies w) = tmpdir w.
Proof.
  split; [|split].
  - intros content Hq. by rewrite restore_originals_lookup, Hq.
  - intros Hnone. rewrite restore_originals_lookup.
    destruct (worktree w !! q); [done|]. by apply first_copy_none.
  - apply restore_originals_tmpdir.
Qed.

(** X21. One commit, one push, never undone: a run either leaves the history as
    it was, or it has added exactly one commit and pushed once, with nothing
    left staged; in the second case that holds whatever the verification
    found. *)
Theorem commit_at_most_once shield_config argv1 env backups manifest w e w' :
  main ROOT token_bytes shield_config argv1 env backups manifest w = (e, w') →
  (commits w' = commits w ∧ pushes w' = pushes w) ∨
  (∃ changes, commits w' = changes :: commits w ∧ pushes w' = S (pushes w) ∧
              staged w' = ∅).
Proof.
  unfold main. intros Hmain.
  destruct (match argv1 with Some a => Some a | None => env end) as [[|c K]|].
  1,3: injection Hmain as <- <-; by left.
  destruct backups as [|backup_zip backups]; [injection Hmain as <- <-; by left|].
  destruct (entry_path <$> filter _ manifest) as [|p sensitive];
    [injection Hmain as <- <-; by left|].
  destruct (encrypt_loop _ _ _ _ _ _ _) as [[w4 copies] failed] eqn:Hloop.
  apply encrypt_loop_frame in Hloop as (Hc & Hp & _). simpl in Hc, Hp.
  destruct failed.
  { injection Hmain as <- <-. left. simpl.
    destruct (restore_originals_frame copies (git_reset (print FailureDuringEncryption w4)))
      as (_ & Hc' & Hp' & _).
    rewrite Hc', Hp'. simpl. by rewrite Hc, Hp. }
  destruct (verify_loop _ _ _ _ _ _) as [w5 ending] eqn:Hver.
  apply verify_loop_spec in Hver as (_ & Hs5 & Hc5 & Hp5 & _). simpl in Hs5, Hc5, Hp5.
  right. exists (staged w4).
  destruct ending as [[]|exc]; injection Hmain as <- <-; simpl;
    rewrite Hs5, Hc5, Hp5, Hc, Hp; done.
Qed.

(** The temporary directory with the copies of the originals is removed on
    every path of a run that created it: after a failed encryption, after a
    failed or passed verification, and when an exception ends the run. *)
Theorem temp_dir_removed shield_config (passphrase : string) env backup backups
    manifest w e w' :
  passphrase ≠ "" →
  entry_path <$> filter (λ it, entry_sensitive it = true) manifest ≠ [] →
  main ROOT token_bytes shield_config (Some passphrase) env (backup :: backups)
    manifest w = (e, w') →
  tmpdir w' = ∅.
Proof.
  intros Hpass Hsens. unfold main. destruct passphrase as [|c K]; [done|].
  destruct (entry_path <$> filter _ manifest) as [|p sensitive]; [done|].
  destruct (encrypt_loop _ _ _ _ _ _ _) as [[w4 copies] failed].
  destruct failed; [by intros [= <- <-]|].
  destruct (verify_loop _ _ _ _ _ _) as [w5 [[]|exc]]; by intros [= <- <-].
Qed.

End RunFurther.

(** ** The callers: [verify_sample_decrypt.py] *)

Section SampleCheck.
Context `{Hashlib}.

Lemma truthy_length (l : list byte) : truthy (Some l) = true ↔ l ≠ [].
Proof. destruct l; simpl; split; done. Qed.

Lemma decrypt_package_length cfg (P : list byte) (K1 K2 : string) (rnd : list byte) :
  marker_well_formed cfg →
  ∃ pt, decrypt_data cfg (encrypt_data cfg P K1 rnd) K2 = Some pt ∧ length pt = length P.
Proof.
  intros Hm. rewrite decrypt_encrypt_data by done. simpl. eexists. split; [done|].
  by rewrite length_layer1, length_layer2, !length_layer3, length_layer2, length_layer1.
Qed.

Lemma sample_status_ignores_passphrase_aux cfg (P : list byte) (K1 K2 : string)
    (rnd : list byte) :
  marker_well_formed cfg → P ≠ [] →
  truthy (decrypt_data cfg (encrypt_data cfg P K1 rnd) K2) = true.
Proof.
  intros Hm Hne. destruct (decrypt_package_length cfg P K1 K2 rnd Hm) as (pt & -> & Hlen).
  apply truthy_length. intros ->. by destruct P.
Qed.

(** X23. The sample check cannot tell a wrong passphrase: the status of a
    package is OK under every passphrase when its plaintext is not empty, and
    FAIL under every passphrase, the right one too, when it is empty. *)
Theorem sample_status_ignores_passphrase cfg (P : list byte) (K1 K2 : string)
    (rnd : list byte) :
  marker_well_formed cfg →
  (truthy (decrypt_data cfg (encrypt_data cfg P K1 rnd) K2) = true ↔ P ≠ []).
Proof.
  intros Hm. destruct (decrypt_package_length cfg P K1 K2 rnd Hm) as (pt & -> & Hlen).
  rewrite truthy_length. split.
  - intros Hpt ->. apply Hpt. by destruct pt.
  - intros HP ->. apply HP. by destruct P.
Qed.

Lemma count_all (f : list byte → bool) (l : list (list byte)) (n : nat) :
  Forall (λ b, f b = true) l →
  foldl (λ ok b, if f b then S ok else ok) n l = n + length l.
Proof.
  intros Hall. revert n. induction Hall as [|b l Hb _ IH]; intros n; simpl; [lia|].
  rewrite Hb, IH. lia.
Qed.

(** X24. When every file found is a package of a non-empty plaintext, under
    whatever passphrases and salts, the script counts OK for each of the
    first 100 of them, whichever passphrase it was given. *)
Theorem sample_count cfg (passphrase : string) (files : list (list byte)) :
  marker_well_formed cfg →
  Forall (λ b, ∃ P K rnd, P ≠ [] ∧ b = encrypt_data cfg P K rnd) files →
  verify_sample_decrypt cfg passphrase files = (min 100 (length files), length files).
Proof.
  intros Hm Hall. unfold verify_sample_decrypt. f_equal.
  rewrite (count_all (λ b, truthy (decrypt_data cfg b passphrase))).
  - rewrite length_take. lia.
  - apply Forall_take. eapply Forall_impl; [exact Hall|].
    intros b (P & K & rnd & Hne & ->). by apply sample_status_ignores_passphrase_aux.
Qed.

End SampleCheck.

(** ** The callers: [verify_encrypted_files.py] *)

Lemma string_app_assoc (a b c : string) : (a +:+ b) +:+ c = a +:+ (b +:+ c).
Proof.
  induction a as [|x a IH]; [done|].
  change ((String x a +:+ b) +:+ c) with (String x ((a +:+ b) +:+ c)).
  change (String x a +:+ (b +:+ c)) with (String x (a +:+ (b +:+ c))). by rewrite IH.
Qed.

Lemma name_no_slash (s : string) : has_slash s = false → name s = s.
Proof. destruct s as [|c s]; [done|]. rewrite name_unfold. by intros ->. Qed.

Lemma name_joinpath (a s : string) : has_slash s = false → name (joinpath a s) = s.
Proof.
  intros Hs. unfold joinpath. induction a as [|c a IH].
  - change ("" +:+ "/" +:+ s) with (String "/" s). rewrite name_unfold.
    change (has_slash (String "/" s)) with (true || has_slash s). simpl.
    by apply name_no_slash.
  - change (String c a +:+ "/" +:+ s) with (String c (a +:+ "/" +:+ s)).
    rewrite name_unfold.
    change (has_slash (String c (a +:+ "/" +:+ s)))
      with (has_slash (String c a +:+ ("/" +:+ s))).
    rewrite has_slash_app.
    change (has_slash ("/" +:+ s)) with (true || has_slash s).
    rewrite orb_true_r. exact IH.
Qed.

Lemma joinpath_assoc (a b c : string) :
  joinpath (joinpath a b) c = joinpath a (b +:+ "/" +:+ c).
Proof. unfold joinpath. by rewrite !string_app_assoc. Qed.

Lemma enc_of_joinpath (a s : string) : enc_of (joinpath a s) = joinpath a (s +:+ ".enc").
Proof. unfold enc_of, joinpath. by rewrite !string_app_assoc. Qed.

Lemma joinpath_eq_inv (a p q : string) : joinpath a p = joinpath a q → p = q.
Proof.
  unfold joinpath. intros E. apply (inj (String.app a)) in E.
  by apply (inj (String.app "/")) in E.
Qed.

Lemma has_slash_joined (a b : string) : has_slash (a +:+ "/" +:+ b) = true.
Proof.
  rewrite has_slash_app. change (has_slash ("/" +:+ b)) with (true || has_slash b).
  apply orb_true_r.
Qed.

(** A path directly below the root is no path below [root/tmp_verify]. *)
Lemma top_level_not_in_tmp (ROOT s t : string) :
  has_slash s = false → joinpath ROOT s ≠ joinpath (joinpath ROOT "tmp_verify") t.
Proof.
  intros Hs E. rewrite joinpath_assoc in E. apply joinpath_eq_inv in E.
  rewrite E, has_slash_joined in Hs. done.
Qed.

Section VerifyFiles.
Context `{Hashlib}.
Variable ROOT : string.

(** The copy, the decryption and the clean-up of one iteration, for an
    artifact that [decrypt_data] accepts and whose file name is [f.enc]:
    the plaintext lands at [tmp_verify/f]. *)
Lemma verify_entry_decrypts cfg K (fs : gmap string (list byte)) (a f : string)
    (artifact pt : list byte) :
  has_slash f = false → f ≠ "" →
  decrypt_data cfg artifact K = Some pt →
  let X := joinpath (joinpath ROOT "tmp_verify") f in
  name (joinpath a (f +:+ ".enc")) = f +:+ ".enc" ∧
  decrypt_file cfg (<[enc_of X := artifact]> fs) (enc_of X) K =
    (true, delete (enc_of X) (<[X := pt]> (<[enc_of X := artifact]> fs))) ∧
  stem_path (enc_of X) = X.
Proof.
  intros Hf Hne Hdec X.
  assert (Hfe : has_slash (f +:+ ".enc") = false) by (by rewrite has_slash_app, Hf).
  assert (Hstem : stem_path (enc_of X) = X).
  { apply stem_path_enc_of. unfold X. by rewrite name_joinpath. }
  split; [by apply name_joinpath|]. split; [|done].
  unfold decrypt_file. rewrite endswith_enc_of, lookup_insert_eq. simpl.
  by rewrite Hdec, Hstem.
Qed.

Lemma verify_entry_top_level cfg K (fs : gmap string (list byte)) failed out
    (rel : string) (artifact pt : list byte) :
  has_slash rel = false → rel ≠ "" →
  fs !! joinpath ROOT (rel +:+ ".enc") = Some artifact →
  decrypt_data cfg artifact K = Some pt →
  let X := joinpath (joinpath ROOT "tmp_verify") rel in
  verify_entry ROOT cfg K (fs, failed, out)
    {| entry_path := rel; entry_sensitive := true |} =
    (delete X (delete (enc_of X) (<[X := pt]> (<[enc_of X := artifact]> fs))),
     failed, out ++ [VerifiedRel rel]).
Proof.
  intros Hrel Hne Hart Hdec X.
  destruct (verify_entry_decrypts cfg K fs ROOT rel artifact pt Hrel Hne Hdec)
    as (Hname & Hfile & Hstem). fold X in Hfile, Hstem.
  unfold verify_entry. simpl. rewrite Hart, Hname.
  rewrite <- enc_of_joinpath. fold X. rewrite Hfile. simpl. rewrite Hstem.
  assert (HX : delete (enc_of X) (<[X := pt]> (<[enc_of X := artifact]> fs)) !! X = Some pt).
  { rewrite lookup_delete_ne by (intros E; symmetry in E; by apply path_ne_enc in E).
    apply lookup_insert_eq. }
  rewrite HX. by rewrite decide_True.
Qed.

Lemma verify_loop_top_level cfg K (fs0 : gmap string (list byte)) (manifest : list ManifestEntry) :
  Forall (λ it, entry_sensitive it = true →
                has_slash (entry_path it) = false ∧ entry_path it ≠ "" ∧
                ∃ artifact, fs0 !! joinpath ROOT (entry_path it +:+ ".enc") = Some artifact ∧
                            is_Some (decrypt_data cfg artifact K)) manifest →
  ∀ fs failed out,
    (∀ s, has_slash s = false → fs !! joinpath ROOT s = fs0 !! joinpath ROOT s) →
    ∃ fs',
      foldl (verify_entry ROOT cfg K) (fs, failed, out) manifest =
        (fs', failed,
         out ++ (VerifiedRel <$>
                   (entry_path <$> filter (λ it, entry_sensitive it = true) manifest))).
Proof.
  induction 1 as [|[rel sens] manifest Hit _ IH]; intros fs failed out Hagree.
  { exists fs. simpl. by rewrite app_nil_r. }
  destruct sens.
  - destruct (Hit eq_refl) as (Hrel & Hne & artifact & Hart & [pt Hpt]).
    simpl in Hrel, Hne, Hart, Hpt.
    assert (Hfe : has_slash (rel +:+ ".enc") = false) by (by rewrite has_slash_app, Hrel).
    rewrite <- Hagree in Hart by done.
    change (foldl (verify_entry ROOT cfg K) (fs, failed, out)
              ({| entry_path := rel; entry_sensitive := true |} :: manifest))
      with (foldl (verify_entry ROOT cfg K)
              (verify_entry ROOT cfg K (fs, failed, out)
                 {| entry_path := rel; entry_sensitive := true |}) manifest).
    rewrite (verify_entry_top_level cfg K fs failed out rel artifact pt) by done.
    edestruct IH as [fs' Hfs'].
    2:{ exists fs'. rewrite Hfs'. rewrite filter_cons_True by done.
        rewrite !fmap_cons. simpl. by rewrite <- app_assoc. }
    intros s Hs. rewrite <- Hagree by done.
    rewrite lookup_delete_ne by (symmetry; by apply top_level_not_in_tmp).
    rewrite lookup_delete_ne
      by (rewrite enc_of_joinpath; symmetry; by apply top_level_not_in_tmp).
    rewrite lookup_insert_ne by (symmetry; by apply top_level_not_in_tmp).
    rewrite lookup_insert_ne
      by (rewrite enc_of_joinpath; symmetry; by apply top_level_not_in_tmp).
    done.
  - rewrite filter_cons_False by done. by apply IH.
Qed.

(** X25. For entries directly below the root the verification is vacuous: the
    decrypted artifact is written over the very file it is compared with.
    When every sensitive entry is such an entry and its artifact is one that
    [decrypt_data] accepts, the script prints Verified for each and exits
    with status 0, whatever the backup holds and whatever the passphrase. *)
Theorem top_level_manifest_passes cfg K (fs : gmap string (list byte))
    (manifest : list ManifestEntry) :
  Forall (λ it, entry_sensitive it = true →
                has_slash (entry_path it) = false ∧ entry_path it ≠ "" ∧
                ∃ artifact, fs !! joinpath ROOT (entry_path it +:+ ".enc") = Some artifact ∧
                            is_Some (decrypt_data cfg artifact K)) manifest →
  verify_encrypted_files ROOT cfg K fs manifest =
    (ExitStatus 0,
     (VerifiedRel <$> (entry_path <$> filter (λ it, entry_sensitive it = true) manifest))
       ++ [VerificationCompletedSuccess]).
Proof.
  intros Hall. unfold verify_encrypted_files.
  destruct (verify_loop_top_level cfg K fs manifest Hall fs false []) as [fs' ->]; done.
Qed.

(** X26. For an entry in a sub-directory the comparison is a real one: the
    plaintext lands at [tmp_verify/f] and is compared with the backup's file
    at [tmp_verify/d/f]; the entry is reported verified exactly when the two
    are equal, and otherwise a mismatch is reported and the run is marked
    failed. *)
Theorem nested_entry_verdict cfg K (fs : gmap string (list byte)) failed out
    (d f : string) (artifact pt orig : list byte) :
  has_slash f = false → f ≠ "" →
  let rel := d +:+ "/" +:+ f in
  fs !! joinpath ROOT (rel +:+ ".enc") = Some artifact →
  decrypt_data cfg artifact K = Some pt →
  fs !! joinpath (joinpath ROOT "tmp_verify") rel = Some orig →
  ∃ fs',
    verify_entry ROOT cfg K (fs, failed, out)
      {| entry_path := rel; entry_sensitive := true |} =
      (fs',
       (if decide (pt = orig) then failed else true),
       out ++ [if decide (pt = orig) then VerifiedRel rel else MismatchAfterDecryptFor rel]).
Proof.
  intros Hf Hne rel Hart Hdec Horig.
  set (tmp := joinpath ROOT "tmp_verify") in *.
  set (X := joinpath tmp f).
  assert (Hpath : joinpath ROOT (rel +:+ ".enc") = joinpath (joinpath ROOT d) (f +:+ ".enc")).
  { unfold rel. rewrite joinpath_assoc. by rewrite !string_app_assoc. }
  destruct (verify_entry_decrypts cfg K fs (joinpath ROOT d) f artifact pt Hf Hne Hdec)
    as (Hname & Hfile & Hstem). fold tmp in Hfile, Hstem. fold X in Hfile, Hstem.
  assert (Hfe : has_slash (f +:+ ".enc") = false) by (by rewrite has_slash_app, Hf).
  assert (HO1 : joinpath tmp rel ≠ X).
  { intros E%joinpath_eq_inv. unfold rel in E. rewrite <- E, has_slash_joined in Hf. done. }
  assert (HO2 : joinpath tmp rel ≠ enc_of X).
  { unfold X. rewrite enc_of_joinpath. intros E%joinpath_eq_inv.
    unfold rel in E. rewrite <- E, has_slash_joined in Hfe. done. }
  unfold verify_entry. simpl. fold rel. fold tmp. rewrite Hart, Hpath, Hname.
  rewrite <- enc_of_joinpath. fold X. rewrite Hfile. simpl. rewrite Hstem.
  rewrite lookup_delete_ne, !lookup_insert_ne, Horig by done.
  rewrite lookup_delete_ne by (intros E; symmetry in E; by apply path_ne_enc in E).
  rewrite lookup_insert_eq.
  destruct (decide (pt = orig)); by eexists.
Qed.

End VerifyFiles.

(** ** The callers: [encrypt_and_validate_file.py] *)

Lemma orig_tmp_ne (p : string) : p +:+ ".orig.tmp" ≠ p ∧ p +:+ ".orig.tmp" ≠ enc_of p.
Proof.
  split.
  - intros E. apply (f_equal String.length) in E. rewrite string_length_app in E.
    simpl in E. lia.
  - unfold enc_of. intros E. by apply (inj (String.app p)) in E.
Qed.

Section Validate.
Context `{Hashlib}.

(** X27. The validation of a file that is not excluded and does not carry the
    marker passes with exit status 0 under every passphrase and every draw.
    The file keeps its bytes; whatever was stored beside it under the
    artifact name [.enc] or the copy name [.orig.tmp] before the run is
    gone afterwards. *)
Theorem validate_passes shield_config (fs : gmap string (list byte)) (p K : string)
    (rnd content : list byte) :
  marker_well_formed shield_config →
  should_exclude shield_config p = false →
  fs !! p = Some content →
  is_encrypted shield_config fs p = false →
  name p ≠ "" →
  encrypt_and_validate_file shield_config fs p K rnd =
    (ExitStatus 0, delete (p +:+ ".orig.tmp") (delete (enc_of p) fs)).
Proof.
  intros Hm Hexcl Hp Hmark Hname.
  destruct (orig_tmp_ne p) as [Ht1 Ht2].
  assert (Hne : p ≠ enc_of p) by apply path_ne_enc.
  unfold encrypt_and_validate_file. rewrite Hp.
  set (tmp := p +:+ ".orig.tmp") in *.
  set (cfg := batch_config shield_config).
  assert (Hmark' : is_encrypted cfg (<[tmp := content]> fs) p = false).
  { unfold is_encrypted in *. rewrite lookup_insert_ne by done. exact Hmark. }
  unfold encrypt_file.
  change (should_exclude cfg p) with (should_exclude shield_config p).
  rewrite Hexcl, Hmark', lookup_insert_ne, Hp by done. simpl.
  rewrite lookup_insert_eq.
  unfold decrypt_file. rewrite endswith_enc_of, lookup_insert_eq. simpl.
  rewrite decrypt_encrypt_data by done. simpl.
  rewrite layers_inverse, stem_path_enc_of by done. simpl.
  rewrite lookup_delete_ne, lookup_insert_eq by done.
  rewrite lookup_delete_ne, lookup_insert_ne, lookup_insert_ne, lookup_insert_eq by done.
  rewrite decide_True by done. f_equal.
  apply map_eq. intros q.
  destruct (decide (q = tmp)) as [->|Hq1]; [by rewrite !lookup_delete_eq|].
  rewrite !(lookup_delete_ne _ tmp) by done.
  destruct (decide (q = enc_of p)) as [->|Hq2]; [by rewrite !lookup_delete_eq|].
  rewrite !(lookup_delete_ne _ (enc_of p)) by done.
  destruct (decide (q = p)) as [->|Hq3]; [by rewrite lookup_insert_eq|].
  by rewrite !lookup_insert_ne.
Qed.

(** X28. A file that carries the marker is never encrypted by the validation:
    [encrypt_file] reports success without writing, and what is decrypted is
    whatever was stored beside the file under the artifact name.  Without
    such a neighbour, or with one [decrypt_data] rejects, the run exits with
    status 1 and the file system is as before; with one it accepts, the
    file is overwritten with the neighbour's plaintext and the neighbour is
    removed, and the exit status is 0 only if that plaintext is what the file
    held. *)
Theorem validate_marked_file shield_config (fs : gmap string (list byte)) (p K : string)
    (rnd content : list byte) :
  should_exclude shield_config p = false →
  fs !! p = Some content →
  is_encrypted shield_config fs p = true →
  name p ≠ "" →
  fs !! (p +:+ ".orig.tmp") = None →
  encrypt_and_validate_file shield_config fs p K rnd =
    match fs !! enc_of p with
    | None => (ExitStatus 1, fs)
    | Some stale =>
      match decrypt_data shield_config stale K with
      | None => (ExitStatus 1, fs)
      | Some pt =>
        (ExitStatus (if decide (content = pt) then 0 else 1),
         delete (enc_of p) (<[p := pt]> fs))
      end
    end.
Proof.
  intros Hexcl Hp Hmark Hname Hfree.
  destruct (orig_tmp_ne p) as [Ht1 Ht2].
  assert (Hne : p ≠ enc_of p) by apply path_ne_enc.
  unfold encrypt_and_validate_file. rewrite Hp.
  set (tmp := p +:+ ".orig.tmp") in *.
  set (cfg := batch_config shield_config).
  assert (Hmark' : is_encrypted cfg (<[tmp := content]> fs) p = true).
  { unfold is_encrypted in *. rewrite lookup_insert_ne by done. exact Hmark. }
  assert (Hback : delete tmp (<[tmp := content]> fs) = fs).
  { rewrite delete_insert_eq. by apply delete_id. }
  unfold encrypt_file.
  change (should_exclude cfg p) with (should_exclude shield_config p).
  rewrite Hexcl, Hmark'. simpl.
  rewrite lookup_insert_ne by done.
  destruct (fs !! enc_of p) as [stale|] eqn:Hstale; [|by rewrite Hback].
  unfold decrypt_file. rewrite endswith_enc_of. simpl.
  rewrite lookup_insert_ne, Hstale by done.
  change (decrypt_data cfg stale K) with (decrypt_data shield_config stale K).
  destruct (decrypt_data shield_config stale K) as [pt|]; [|by rewrite Hback].
  simpl. rewrite stem_path_enc_of by done.
  rewrite lookup_delete_ne, lookup_insert_eq by done.
  rewrite lookup_delete_ne, lookup_insert_ne, lookup_insert_eq by done.
  assert (Hfs : delete tmp (delete (enc_of p) (<[p := pt]> (<[tmp := content]> fs)))
                = delete (enc_of p) (<[p := pt]> fs)).
  { apply map_eq. intros q.
    destruct (decide (q = tmp)) as [->|Hq1].
    - rewrite lookup_delete_eq, lookup_delete_ne, lookup_insert_ne by done. by rewrite Hfree.
    - rewrite lookup_delete_ne by done.
      destruct (decide (q = enc_of p)) as [->|Hq2]; [by rewrite !lookup_delete_eq|].
      rewrite !(lookup_delete_ne _ (enc_of p)) by done.
      destruct (decide (q = p)) as [->|Hq3]; [by rewrite !lookup_insert_eq|].
      by rewrite !lookup_insert_ne. }
  rewrite Hfs. by destruct (decide (content = pt)).
Qed.

End Validate.

(** ** The callers: [scan_and_encrypt_directory] *)

Section Scan.
Context `{Hashlib}.
Variable token_bytes : nat → list byte.
Variable read_text : nat → list byte → string.

Lemma encrypt_file_verdict cfg (fs : gmap string (list byte)) (p K : string) (rnd : list byte) :
  is_Some (fs !! p) → (encrypt_file cfg fs p K rnd).1 = negb (should_exclude cfg p).
Proof.
  intros [content Hp]. unfold encrypt_file.
  destruct (should_exclude cfg p); [done|].
  destruct (is_encrypted cfg fs p); [done|]. by rewrite Hp.
Qed.

Lemma encrypt_file_lookup cfg (fs : gmap string (list byte)) (p K : string) (rnd : list byte)
    (q : string) :
  q ≠ enc_of p →
  delete_original_after_encrypt cfg && negb (dry_run cfg) = false ∨ q ≠ p →
  (encrypt_file cfg fs p K rnd).2 !! q = fs !! q.
Proof.
  intros Hq Hkeep. unfold encrypt_file.
  destruct (should_exclude cfg p); [done|].
  destruct (is_encrypted cfg fs p); [done|].
  destruct (fs !! p) as [content|]; [|done]. simpl.
  destruct (delete_original_after_encrypt cfg && negb (dry_run cfg)).
  - destruct Hkeep as [?|Hqp]; [done|]. by rewrite lookup_delete_ne, lookup_insert_ne.
  - by rewrite lookup_insert_ne.
Qed.

Lemma scan_loop_counts cfg K classification (listing : list string) :
  classification = None ∨ classification = Some "" →
  NoDup listing →
  ∀ (fs : gmap string (list byte)) (e s : nat),
    (∀ p, p ∈ listing → is_Some (fs !! p)) →
    ∃ fs',
      scan_loop token_bytes read_text cfg K classification listing fs e s =
        (fs',
         e + length (filter (λ p, should_exclude cfg p = false) listing),
         s + length (filter (λ p, should_exclude cfg p = true) listing)).
Proof.
  intros Hclass Hnodup. induction Hnodup as [|p rest Hnotin _ IH]; intros fs e s Hfiles.
  { exists fs. simpl. by rewrite !Nat.add_0_r. }
  destruct (Hfiles p (list_elem_of_here _ _)) as [content Hp].
  assert (Hwanted : match classification with
                    | None | Some EmptyString => true
                    | Some c => str_in c (read_text 500 content)
                    end = true) by (by destruct Hclass as [->| ->]).
  pose proof (encrypt_file_verdict cfg fs p K (token_bytes (e + s)) (mk_is_Some _ _ Hp))
    as Hverdict.
  assert (Hrest : ∀ q, q ∈ rest →
            is_Some ((encrypt_file cfg fs p K (token_bytes (e + s))).2 !! q)).
  { intros q Hq. apply encrypt_file_keeps.
    - intros ->. by apply Hnotin.
    - apply Hfiles. by apply list_elem_of_further. }
  simpl scan_loop. rewrite Hp, Hwanted. simpl negb. cbv iota.
  destruct (encrypt_file cfg fs p K (token_bytes (e + s))) as [ok fs1].
  simpl in Hverdict, Hrest. subst ok.
  destruct (should_exclude cfg p) eqn:Hexcl; simpl negb; cbv iota.
  - destruct (IH fs1 e (S s) Hrest) as [fs' ->]. exists fs'.
    rewrite (filter_cons_False (λ p, should_exclude cfg p = false)) by (by rewrite Hexcl).
    rewrite (filter_cons_True (λ p, should_exclude cfg p = true)) by done.
    simpl. do 2 f_equal. lia.
  - destruct (IH fs1 (S e) s Hrest) as [fs' ->]. exists fs'.
    rewrite (filter_cons_True (λ p, should_exclude cfg p = false)) by done.
    rewrite (filter_cons_False (λ p, should_exclude cfg p = true)) by (by rewrite Hexcl).
    simpl. do 2 f_equal. lia.
Qed.

(** X29. What the two counters of a scan without a classification count: when
    the walk yields existing files, each once, [skipped_count] is the number
    of excluded paths and [encrypted_count] the number of all others, the
    files that already carry the marker included. *)
Theorem scan_counts cfg K classification (listing : list string)
    (fs : gmap string (list byte)) :
  classification = None ∨ classification = Some "" →
  NoDup listing →
  (∀ p, p ∈ listing → is_Some (fs !! p)) →
  let r := scan_and_encrypt_directory token_bytes read_text cfg K classification listing fs in
  (r.1).2 = length (filter (λ p, should_exclude cfg p = false) listing) ∧
  r.2 = length (filter (λ p, should_exclude cfg p = true) listing) ∧
  (r.1).2 + r.2 = length listing.
Proof.
  intros Hclass Hnodup Hfiles r. unfold r, scan_and_encrypt_directory.
  destruct (scan_loop_counts cfg K classification listing Hclass Hnodup fs 0 0 Hfiles)
    as [fs' ->].
  simpl. split; [done|]. split; [done|].
  clear. induction listing as [|p rest IH]; [done|].
  destruct (should_exclude cfg p) eqn:Hexcl.
  - rewrite (filter_cons_False (λ p, should_exclude cfg p = false)) by (by rewrite Hexcl).
    rewrite (filter_cons_True (λ p, should_exclude cfg p = true)) by done.
    simpl. lia.
  - rewrite (filter_cons_True (λ p, should_exclude cfg p = false)) by done.
    rewrite (filter_cons_False (λ p, should_exclude cfg p = true)) by (by rewrite Hexcl).
    simpl. lia.
Qed.

Lemma scan_loop_lookup cfg K classification (listing : list string) (q : string) :
  (∀ p, p ∈ listing → q ≠ enc_of p) →
  delete_original_after_encrypt cfg && negb (dry_run cfg) = false ∨ q ∉ listing →
  ∀ (fs : gmap string (list byte)) (e s : nat),
    (scan_loop token_bytes read_text cfg K classification listing fs e s).1.1 !! q = fs !! q.
Proof.
  induction listing as [|p rest IH]; intros Hart Hkeep fs e s; [done|].
  assert (IH' : ∀ fs e s,
            (scan_loop token_bytes read_text cfg K classification rest fs e s).1.1 !! q
            = fs !! q).
  { apply IH.
    - intros p' Hp'. apply Hart. by apply list_elem_of_further.
    - destruct Hkeep as [?|Hnotin]; [by left|]. right. intros Hin. apply Hnotin.
      by apply list_elem_of_further. }
  pose proof (encrypt_file_lookup cfg fs p K (token_bytes (e + s)) q
                (Hart p (list_elem_of_here _ _))) as Hstep.
  simpl scan_loop. destruct (fs !! p) as [content|]; [|apply IH'].
  match goal with |- context [negb ?wanted] => destruct (negb wanted) end; [apply IH'|].
  destruct (encrypt_file cfg fs p K (token_bytes (e + s))) as [ok fs1].
  simpl in Hstep.
  assert (Hq : fs1 !! q = fs !! q).
  { apply Hstep. destruct Hkeep as [?|Hnotin]; [by left|]. right. intros ->.
    apply Hnotin, list_elem_of_here. }
  destruct ok; by rewrite IH'.
Qed.

(** X30. What a scan can change: a path that is not the artifact path of a
    listed path holds after the scan what it held before, provided it is not
    listed itself or deletion of originals is off (or this is a dry run).  So
    a scan never changes a file outside the listing and the artifact paths,
    and with deletion off it changes artifact paths only. *)
Theorem scan_frame cfg K classification (listing : list string)
    (fs : gmap string (list byte)) (q : string) :
  (∀ p, p ∈ listing → q ≠ enc_of p) →
  delete_original_after_encrypt cfg && negb (dry_run cfg) = false ∨ q ∉ listing →
  (scan_and_encrypt_directory token_bytes read_text cfg K classification listing fs).1.1 !! q
  = fs !! q.
Proof. intros Hart Hkeep. by apply scan_loop_lookup. Qed.

End Scan.

(** ** The further properties on concrete inputs *)

(** The cipher engine. *)

Lemma decrypt_data_framed_witness :
  marker_well_formed default_config ∧
  find_sep (encode "v9.9" ++ [colon]) = None ∧
  find_sep (encode "00ff" ++ [colon]) = None ∧
  decrypt_data (H := stand_in_hashlib) default_config
    (package_header default_config (encode "v9.9") (encode "00ff") ++ encode "abc")
    sample_passphrase =
    (if utf8_valid (encode "00ff") then
       let key := derive_encryption_key (H := stand_in_hashlib) sample_passphrase
                    (string_of_list_byte (encode "00ff")) in
       Some (layer1 key (layer2 key (layer3 (encode "abc"))))
     else None).
Proof.
  split; [apply default_marker_well_formed|].
  split; [reflexivity|]. split; [reflexivity|].
  apply (decrypt_data_framed (H := stand_in_hashlib) default_config (encode "v9.9")
           (encode "00ff") (encode "abc") sample_passphrase).
  - apply default_marker_well_formed.
  - reflexivity.
  - reflexivity.
Defined.

Lemma decrypt_data_accepts_witness :
  decrypt_data (H := stand_in_hashlib) default_config
    (encode "ARTIFACT_SHIELD_ENCRYPTED::v0::ab::" ++ [x00; x00]) sample_passphrase
    = Some [x62; x61] ∧
  ∃ v salt_bytes ct,
    encode "ARTIFACT_SHIELD_ENCRYPTED::v0::ab::" ++ [x00; x00]
      = package_header default_config v salt_bytes ++ ct ∧
    utf8_valid salt_bytes = true ∧
    length [x62; x61] = length ct.
Proof.
  assert (Hdec : decrypt_data (H := stand_in_hashlib) default_config
            (encode "ARTIFACT_SHIELD_ENCRYPTED::v0::ab::" ++ [x00; x00]) sample_passphrase
            = Some [x62; x61]) by (vm_compute; reflexivity).
  split; [exact Hdec|].
  exact (decrypt_data_accepts (H := stand_in_hashlib) default_config _ sample_passphrase
           [x62; x61] Hdec).
Defined.

Lemma marker_tamper_rejected_witness :
  0 < length (encode (encryption_marker default_config)) ∧
  encode (encryption_marker default_config) !! 0 ≠ Some x00 ∧
  decrypt_data (H := stand_in_hashlib) default_config
    (<[0 := x00]> (encrypt_data (H := stand_in_hashlib) default_config
                     (encode "hello world") sample_passphrase (replicate 32 x2a)))
    sample_passphrase = None.
Proof.
  assert (H1 : 0 < length (encode (encryption_marker default_config)))
    by (vm_compute; lia).
  assert (H2 : encode (encryption_marker default_config) !! 0 ≠ Some x00)
    by discriminate.
  split; [exact H1|]. split; [exact H2|].
  exact (marker_tamper_rejected (H := stand_in_hashlib) default_config
           (encode "hello world") sample_passphrase sample_passphrase (replicate 32 x2a)
           0 x00 H1 H2).
Defined.

Lemma other_marker_rejected_witness :
  find_sep (encode (encryption_marker default_config) ++ [colon]) = None ∧
  encryption_marker default_config ≠ encryption_marker separator_marker_config ∧
  decrypt_data (H := stand_in_hashlib) separator_marker_config
    (encrypt_data (H := stand_in_hashlib) default_config (encode "hello world")
       sample_passphrase (replicate 32 x2a))
    sample_passphrase = None.
Proof.
  assert (H1 : find_sep (encode (encryption_marker default_config) ++ [colon]) = None)
    by reflexivity.
  assert (H2 : encryption_marker default_config ≠ encryption_marker separator_marker_config)
    by discriminate.
  split; [exact H1|]. split; [exact H2|].
  exact (other_marker_rejected (H := stand_in_hashlib) default_config
           separator_marker_config (encode "hello world") sample_passphrase
           sample_passphrase (replicate 32 x2a) H1 H2).
Defined.

Lemma salt_freshness_witness :
  marker_well_formed default_config ∧
  replicate 32 x2a ≠ replicate 32 x2b ∧
  (encrypt_data (H := stand_in_hashlib) default_config (encode "hello world")
     sample_passphrase (replicate 32 x2a)
   ≠ encrypt_data (H := stand_in_hashlib) default_config (encode "hello world")
       sample_passphrase (replicate 32 x2b) ∧
   decrypt_data (H := stand_in_hashlib) default_config
     (encrypt_data (H := stand_in_hashlib) default_config (encode "hello world")
        sample_passphrase (replicate 32 x2a)) sample_passphrase
   = Some (encode "hello world") ∧
   decrypt_data (H := stand_in_hashlib) default_config
     (encrypt_data (H := stand_in_hashlib) default_config (encode "hello world")
        sample_passphrase (replicate 32 x2b)) sample_passphrase
   = Some (encode "hello world")).
Proof.
  assert (H2 : replicate 32 x2a ≠ replicate 32 x2b) by discriminate.
  split; [apply default_marker_well_formed|]. split; [exact H2|].
  exact (salt_freshness (H := stand_in_hashlib) default_config (encode "hello world")
           sample_passphrase (replicate 32 x2a) (replicate 32 x2b)
           default_marker_well_formed H2).
Defined.

Lemma mirrored_bytes_leak_witness :
  2 < length (encode "hello world") ∧
  bxor (ciphertext_of (H := stand_in_hashlib) (encode "hello world") sample_passphrase
          (replicate 32 x2a) !!! 2)
       (ciphertext_of (H := stand_in_hashlib) (encode "hello world") sample_passphrase
          (replicate 32 x2a) !!! (length (encode "hello world") - 1 - 2))
  = bxor (bxor (encode "hello world" !!! 2)
               (encode "hello world" !!! (length (encode "hello world") - 1 - 2)))
         (bxor (position_factor 2)
               (position_factor (length (encode "hello world") - 1 - 2))).
Proof.
  assert (H1 : 2 < length (encode "hello world")) by (vm_compute; lia).
  split; [exact H1|].
  exact (mirrored_bytes_leak (H := stand_in_hashlib) (encode "hello world")
           sample_passphrase (replicate 32 x2a) 2 H1).
Defined.

Lemma ciphertext_malleable_witness :
  marker_well_formed default_config ∧
  length (replicate 11 x20) = length (encode "hello world") ∧
  (encrypt_data (H := stand_in_hashlib) default_config (encode "hello world")
     sample_passphrase (replicate 32 x2a)
   = package_header default_config version (hexlify (replicate 32 x2a))
       ++ ciphertext_of (H := stand_in_hashlib) (encode "hello world") sample_passphrase
            (replicate 32 x2a) ∧
   decrypt_data (H := stand_in_hashlib) default_config
     (package_header default_config version (hexlify (replicate 32 x2a))
        ++ zip_with bxor
             (ciphertext_of (H := stand_in_hashlib) (encode "hello world")
                sample_passphrase (replicate 32 x2a))
             (replicate 11 x20))
     sample_passphrase
   = Some (zip_with bxor (encode "hello world") (replicate 11 x20))).
Proof.
  assert (H2 : length (replicate 11 x20) = length (encode "hello world")) by reflexivity.
  split; [apply default_marker_well_formed|]. split; [exact H2|].
  exact (ciphertext_malleable (H := stand_in_hashlib) default_config (encode "hello world")
           sample_passphrase (replicate 32 x2a) (replicate 11 x20)
           default_marker_well_formed H2).
Defined.

(** The file codec. *)

Lemma file_round_trip_witness :
  let r1 := encrypt_file (H := stand_in_hashlib) default_config notes_tree "docs/notes.txt"
              sample_passphrase (replicate 32 x2a) in
  let r2 := decrypt_file (H := stand_in_hashlib) default_config r1.2
              (enc_of "docs/notes.txt") sample_passphrase in
  marker_well_formed default_config ∧
  should_exclude default_config "docs/notes.txt" = false ∧
  is_encrypted default_config notes_tree "docs/notes.txt" = false ∧
  notes_tree !! "docs/notes.txt" = Some (encode "hello world") ∧
  name "docs/notes.txt" ≠ "" ∧
  (r1.1 = true ∧ r2.1 = true ∧
   r2.2 !! "docs/notes.txt" = Some (encode "hello world") ∧
   r2.2 !! enc_of "docs/notes.txt" = None ∧
   (∀ q, q ≠ "docs/notes.txt" → q ≠ enc_of "docs/notes.txt" → r2.2 !! q = notes_tree !! q) ∧
   (notes_tree !! enc_of "docs/notes.txt" = None → r2.2 = notes_tree)).
Proof.
  assert (H2 : should_exclude default_config "docs/notes.txt" = false)
    by (vm_compute; reflexivity).
  assert (H3 : is_encrypted default_config notes_tree "docs/notes.txt" = false)
    by (vm_compute; reflexivity).
  assert (H4 : notes_tree !! "docs/notes.txt" = Some (encode "hello world"))
    by (vm_compute; reflexivity).
  assert (H5 : name "docs/notes.txt" ≠ "") by discriminate.
  split; [apply default_marker_well_formed|].
  split; [exact H2|]. split; [exact H3|]. split; [exact H4|]. split; [exact H5|].
  exact (file_round_trip (H := stand_in_hashlib) default_config notes_tree "docs/notes.txt"
           sample_passphrase (replicate 32 x2a) (encode "hello world")
           default_marker_well_formed H2 H3 H4 H5).
Defined.

Lemma decrypt_file_dot_enc_witness :
  name "vault/.enc" = ".enc" ∧
  ({[ "vault/.enc" := sample_package ]} : gmap string (list byte)) !! "vault/.enc"
    = Some sample_package ∧
  decrypt_data (H := stand_in_hashlib) default_config sample_package sample_passphrase
    = Some (encode "hello world") ∧
  decrypt_file (H := stand_in_hashlib) default_config {[ "vault/.enc" := sample_package ]}
    "vault/.enc" sample_passphrase
    = (true, delete "vault/.enc" {[ "vault/.enc" := sample_package ]}).
Proof.
  assert (H1 : name "vault/.enc" = ".enc") by reflexivity.
  assert (H2 : ({[ "vault/.enc" := sample_package ]} : gmap string (list byte))
                 !! "vault/.enc" = Some sample_package) by apply lookup_singleton_eq.
  assert (H3 : decrypt_data (H := stand_in_hashlib) default_config sample_package
                 sample_passphrase = Some (encode "hello world"))
    by (vm_compute; reflexivity).
  split; [exact H1|]. split; [exact H2|]. split; [exact H3|].
  exact (decrypt_file_dot_enc (H := stand_in_hashlib) default_config
           {[ "vault/.enc" := sample_package ]} "vault/.enc" sample_passphrase
           sample_package (encode "hello world") H1 H2 H3).
Defined.

Lemma artifact_recognised_witness :
  let fs1 := (encrypt_file (H := stand_in_hashlib) default_config notes_tree
                "docs/notes.txt" sample_passphrase (replicate 32 x2a)).2 in
  (length (encode (encryption_marker default_config)) ≤ 100)%nat ∧
  should_exclude default_config "docs/notes.txt" = false ∧
  is_encrypted default_config notes_tree "docs/notes.txt" = false ∧
  notes_tree !! "docs/notes.txt" = Some (encode "hello world") ∧
  (is_encrypted default_config fs1 (enc_of "docs/notes.txt") = true ∧
   encrypt_file (H := stand_in_hashlib) default_config fs1 (enc_of "docs/notes.txt")
     "another passphrase" (replicate 32 x2b)
   = (negb (should_exclude default_config (enc_of "docs/notes.txt")), fs1)).
Proof.
  assert (H1 : (length (encode (encryption_marker default_config)) ≤ 100)%nat)
    by (vm_compute; lia).
  assert (H2 : should_exclude default_config "docs/notes.txt" = false)
    by (vm_compute; reflexivity).
  assert (H3 : is_encrypted default_config notes_tree "docs/notes.txt" = false)
    by (vm_compute; reflexivity).
  assert (H4 : notes_tree !! "docs/notes.txt" = Some (encode "hello world"))
    by (vm_compute; reflexivity).
  split; [exact H1|]. split; [exact H2|]. split; [exact H3|]. split; [exact H4|].
  exact (artifact_recognised (H := stand_in_hashlib) default_config notes_tree
           "docs/notes.txt" sample_passphrase "another passphrase" (replicate 32 x2a)
           (replicate 32 x2b) (encode "hello world") H1 H2 H3 H4).
Defined.

Lemma long_marker_never_detected_witness :
  (100 < length (encode (encryption_marker long_marker_config)))%nat ∧
  is_encrypted long_marker_config
    {[ "docs/notes.txt.enc" :=
         encrypt_data (H := stand_in_hashlib) long_marker_config (encode "hello world")
           sample_passphrase (replicate 32 x2a) ]}
    "docs/notes.txt.enc" = false.
Proof.
  assert (H1 : (100 < length (encode (encryption_marker long_marker_config)))%nat)
    by (vm_compute; lia).
  split; [exact H1|].
  exact (long_marker_never_detected long_marker_config _ "docs/notes.txt.enc" H1).
Defined.

Lemma exclusion_by_substring_witness :
  ".git" ∈ exclude_patterns default_config ∧
  should_exclude default_config ("site/my" +:+ ".git" +:+ "hub.io/index.html") = true ∧
  encrypt_file (H := stand_in_hashlib) default_config
    {[ "site/my.github.io/index.html" := encode "notes" ]}
    ("site/my" +:+ ".git" +:+ "hub.io/index.html") sample_passphrase (replicate 32 x2a)
  = (false, {[ "site/my.github.io/index.html" := encode "notes" ]}).
Proof.
  assert (H1 : ".git" ∈ exclude_patterns default_config).
  { apply list_elem_of_In. vm_compute. auto 20. }
  split; [exact H1|].
  exact (exclusion_by_substring (H := stand_in_hashlib) default_config
           {[ "site/my.github.io/index.html" := encode "notes" ]} ".git" "site/my"
           "hub.io/index.html" sample_passphrase (replicate 32 x2a) H1).
Defined.

(** The batch script. *)

Lemma batch_aborts_untouched_witness :
  ((Some "" : option string) = None ∨ (Some "" : option string) = Some "" ∨
   [scenario_A_backup] = [] ∨
   Forall (λ it, entry_sensitive it = false) scenario_A_manifest) ∧
  ∃ code w',
    main (H := stand_in_hashlib) repo sample_token_bytes default_config (Some "")
      (Some sample_passphrase) [scenario_A_backup] scenario_A_manifest scenario_A_world
      = (ExitStatus code, w') ∧
    worktree w' = worktree scenario_A_world ∧ tmpdir w' = tmpdir scenario_A_world ∧
    staged w' = staged scenario_A_world ∧
    commits w' = commits scenario_A_world ∧ pushes w' = pushes scenario_A_world ∧
    (code = 0 ↔ (Some "" : option string) ≠ None ∧ (Some "" : option string) ≠ Some "" ∧
                [scenario_A_backup] ≠ []).
Proof.
  assert (H1 : (Some "" : option string) = None ∨ (Some "" : option string) = Some "" ∨
               [scenario_A_backup] = [] ∨
               Forall (λ it, entry_sensitive it = false) scenario_A_manifest)
    by (right; left; reflexivity).
  split; [exact H1|].
  exact (batch_aborts_untouched (H := stand_in_hashlib) repo sample_token_bytes
           default_config (Some "") (Some sample_passphrase) [scenario_A_backup]
           scenario_A_manifest scenario_A_world H1).
Defined.

Lemma removed_files_are_recorded_witness :
  let r := encrypt_loop (H := stand_in_hashlib) repo sample_token_bytes
             (batch_config default_config) sample_passphrase ["secrets/a.txt"] []
             scenario_A_world in
  is_Some (worktree scenario_A_world !! "/repo/secrets/a.txt") ∧
  worktree (r.1).1 !! "/repo/secrets/a.txt" = None ∧
  ∃ tmp, ("/repo/secrets/a.txt", tmp) ∈ (r.1).2.
Proof.
  intros r.
  assert (H1 : is_Some (worktree scenario_A_world !! "/repo/secrets/a.txt"))
    by (eexists; vm_compute; reflexivity).
  assert (H2 : worktree (r.1).1 !! "/repo/secrets/a.txt" = None)
    by (vm_compute; reflexivity).
  split; [exact H1|]. split; [exact H2|].
  apply (removed_files_are_recorded (H := stand_in_hashlib) repo sample_token_bytes
           (batch_config default_config) sample_passphrase ["secrets/a.txt"] []
           scenario_A_world (r.1).1 (r.1).2 r.2 "/repo/secrets/a.txt"); [|exact H1|exact H2].
  unfold r. by destruct (encrypt_loop _ _ _ _ _ _ _) as [[? ?] ?].
Defined.

Lemma commit_at_most_once_witness :
  let r := main (H := stand_in_hashlib) repo sample_token_bytes default_config
             (Some sample_passphrase) None [scenario_A_backup] scenario_A_manifest
             scenario_A_world in
  main (H := stand_in_hashlib) repo sample_token_bytes default_config
    (Some sample_passphrase) None [scenario_A_backup] scenario_A_manifest
    scenario_A_world = (r.1, r.2) ∧
  ((commits r.2 = commits scenario_A_world ∧ pushes r.2 = pushes scenario_A_world) ∨
   (∃ changes, commits r.2 = changes :: commits scenario_A_world ∧
               pushes r.2 = S (pushes scenario_A_world) ∧ staged r.2 = ∅)).
Proof.
  intros r.
  assert (H1 : main (H := stand_in_hashlib) repo sample_token_bytes default_config
                 (Some sample_passphrase) None [scenario_A_backup] scenario_A_manifest
                 scenario_A_world = (r.1, r.2)) by apply surjective_pairing.
  split; [exact H1|].
  exact (commit_at_most_once (H := stand_in_hashlib) repo sample_token_bytes default_config
           (Some sample_passphrase) None [scenario_A_backup] scenario_A_manifest
           scenario_A_world r.1 r.2 H1).
Defined.

Lemma failed_batch_aborts_witness :
  let r := encrypt_loop (H := stand_in_hashlib) repo sample_token_bytes
             (batch_config default_config) sample_passphrase
             (entry_path <$> filter (λ it, entry_sensitive it = true) collision_manifest) []
             (set_tmpdir (λ _, ∅)
                (print (FilesToEncrypt
                          (length (entry_path <$>
                                     filter (λ it, entry_sensitive it = true)
                                       collision_manifest)))
                   (print BackupCreated (print CreatingBackup collision_world)))) in
  sample_passphrase ≠ "" ∧
  r = ((r.1).1, (r.1).2, true) ∧
  ∃ w', main (H := stand_in_hashlib) repo sample_token_bytes default_config
          (Some sample_passphrase) None [collision_backup] collision_manifest
          collision_world = (ExitStatus 1, w') ∧
        commits w' = commits collision_world ∧ pushes w' = pushes collision_world ∧
        staged w' = ∅.
Proof.
  intros r.
  assert (H1 : sample_passphrase ≠ "") by discriminate.
  assert (H2 : r = ((r.1).1, (r.1).2, true)) by (vm_compute; reflexivity).
  split; [exact H1|]. split; [exact H2|].
  exact (failed_batch_aborts (H := stand_in_hashlib) repo sample_token_bytes default_config
           sample_passphrase collision_backup [] collision_manifest collision_world
           (r.1).1 (r.1).2 H1 H2).
Defined.

Lemma rollback_restores_originals_witness :
  let sensitive := entry_path <$> filter (λ it, entry_sensitive it = true) distinct_manifest in
  let r := encrypt_loop (H := stand_in_hashlib) repo sample_token_bytes
             (batch_config default_config) sample_passphrase sensitive []
             (set_tmpdir (λ _, ∅)
                (print (FilesToEncrypt (length sensitive))
                   (print BackupCreated (print CreatingBackup collision_world)))) in
  sample_passphrase ≠ "" ∧
  NoDup (name <$> sensitive) ∧
  alias_free repo sensitive ∧
  r = ((r.1).1, (r.1).2, true) ∧
  ∃ w', main (H := stand_in_hashlib) repo sample_token_bytes default_config
          (Some sample_passphrase) None [collision_backup] distinct_manifest
          collision_world = (ExitStatus 1, w') ∧
        ∀ p, p ∈ sensitive →
             worktree w' !! joinpath repo p = worktree collision_world !! joinpath repo p.
Proof.
  intros sensitive r.
  assert (H1 : sample_passphrase ≠ "") by discriminate.
  assert (H2 : NoDup (name <$> sensitive)).
  { apply (bool_decide_unpack _). vm_compute. exact I. }
  assert (H3 : alias_free repo sensitive).
  { intros p q Hp%list_elem_of_In Hq%list_elem_of_In E.
    vm_compute in Hp, Hq.
    destruct Hp as [<-|[<-|[]]], Hq as [<-|[<-|[]]]; vm_compute in E; discriminate E. }
  assert (H4 : r = ((r.1).1, (r.1).2, true)) by (vm_compute; reflexivity).
  split; [exact H1|]. split; [exact H2|]. split; [exact H3|]. split; [exact H4|].
  exact (rollback_restores_originals (H := stand_in_hashlib) repo sample_token_bytes
           default_config sample_passphrase collision_backup [] distinct_manifest
           collision_world (r.1).1 (r.1).2 H1 H2 H3 H4).
Defined.

Lemma verify_loop_never_succeeds_witness :
  let r := verify_loop (H := stand_in_hashlib) repo (batch_config default_config)
             sample_passphrase scenario_A_backup [("/repo/secrets/a.txt", "a.txt")]
             scenario_A_committed in
  r = (r.1, r.2) ∧
  ("/repo/secrets/a.txt", "a.txt") ∈ [("/repo/secrets/a.txt", "a.txt")] ∧
  is_Some (scenario_A_backup !! relative_to repo "/repo/secrets/a.txt") ∧
  r.2 ≠ Completed false.
Proof.
  intros r.
  assert (H1 : r = (r.1, r.2)) by apply surjective_pairing.
  assert (H2 : ("/repo/secrets/a.txt", "a.txt") ∈ [("/repo/secrets/a.txt", "a.txt")])
    by apply list_elem_of_here.
  assert (H3 : is_Some (scenario_A_backup !! relative_to repo "/repo/secrets/a.txt"))
    by (eexists; vm_compute; reflexivity).
  split; [exact H1|]. split; [exact H2|]. split; [exact H3|].
  exact (verify_loop_never_succeeds (H := stand_in_hashlib) repo
           (batch_config default_config) sample_passphrase scenario_A_backup
           [("/repo/secrets/a.txt", "a.txt")] scenario_A_committed r.1 r.2
           "/repo/secrets/a.txt" "a.txt" H1 H2 H3).
Defined.

(** The callers. *)

Lemma sample_status_ignores_passphrase_witness :
  marker_well_formed default_config ∧
  (truthy (decrypt_data (H := stand_in_hashlib) default_config
             (encrypt_data (H := stand_in_hashlib) default_config []
                sample_passphrase (replicate 32 x2a)) sample_passphrase) = true
   ↔ ([] : list byte) ≠ []).
Proof.
  split; [apply default_marker_well_formed|].
  exact (sample_status_ignores_passphrase (H := stand_in_hashlib) default_config []
           sample_passphrase sample_passphrase (replicate 32 x2a)
           default_marker_well_formed).
Defined.

Lemma sample_count_witness :
  marker_well_formed default_config ∧
  Forall (λ b, ∃ P K rnd, P ≠ [] ∧
                 b = encrypt_data (H := stand_in_hashlib) default_config P K rnd)
    [sample_package;
     encrypt_data (H := stand_in_hashlib) default_config (encode "x") other_passphrase
       (replicate 32 x2b)] ∧
  verify_sample_decrypt (H := stand_in_hashlib) default_config "neither passphrase"
    [sample_package;
     encrypt_data (H := stand_in_hashlib) default_config (encode "x") other_passphrase
       (replicate 32 x2b)]
  = (min 100 2, 2).
Proof.
  assert (H2 : Forall (λ b, ∃ P K rnd, P ≠ [] ∧
                  b = encrypt_data (H := stand_in_hashlib) default_config P K rnd)
                 [sample_package;
                  encrypt_data (H := stand_in_hashlib) default_config (encode "x")
                    other_passphrase (replicate 32 x2b)]).
  { apply Forall_cons. split.
    - exists (encode "hello world"), sample_passphrase, (replicate 32 x2a).
      split; [discriminate|reflexivity].
    - apply Forall_cons. split; [|apply Forall_nil_2].
      exists (encode "x"), other_passphrase, (replicate 32 x2b).
      split; [discriminate|reflexivity]. }
  split; [apply default_marker_well_formed|]. split; [exact H2|].
  exact (sample_count (H := stand_in_hashlib) default_config "neither passphrase" _
           default_marker_well_formed H2).
Defined.

Lemma top_level_manifest_passes_witness :
  Forall (λ it, entry_sensitive it = true →
                has_slash (entry_path it) = false ∧ entry_path it ≠ "" ∧
                ∃ artifact,
                  top_level_tree !! joinpath repo (entry_path it +:+ ".enc") = Some artifact ∧
                  is_Some (decrypt_data (H := stand_in_hashlib) default_config artifact
                             other_passphrase)) top_level_manifest ∧
  verify_encrypted_files (H := stand_in_hashlib) repo default_config other_passphrase
    top_level_tree top_level_manifest =
    (ExitStatus 0,
     (VerifiedRel <$>
        (entry_path <$> filter (λ it, entry_sensitive it = true) top_level_manifest))
       ++ [VerificationCompletedSuccess]).
Proof.
  assert (H1 : Forall (λ it, entry_sensitive it = true →
                  has_slash (entry_path it) = false ∧ entry_path it ≠ "" ∧
                  ∃ artifact,
                    top_level_tree !! joinpath repo (entry_path it +:+ ".enc")
                      = Some artifact ∧
                    is_Some (decrypt_data (H := stand_in_hashlib) default_config artifact
                               other_passphrase)) top_level_manifest).
  { apply Forall_cons. split.
    - intros _. split; [reflexivity|]. split; [discriminate|].
      exists sample_package. split; [vm_compute; reflexivity|].
      eexists. vm_compute. reflexivity.
    - apply Forall_cons. split; [discriminate|apply Forall_nil_2]. }
  split; [exact H1|].
  exact (top_level_manifest_passes (H := stand_in_hashlib) repo default_config
           other_passphrase top_level_tree top_level_manifest H1).
Defined.

Lemma nested_entry_verdict_witness :
  has_slash "a.txt" = false ∧ "a.txt" ≠ "" ∧
  nested_tree !! joinpath repo (("secrets" +:+ "/" +:+ "a.txt") +:+ ".enc")
    = Some sample_package ∧
  decrypt_data (H := stand_in_hashlib) default_config sample_package sample_passphrase
    = Some (encode "hello world") ∧
  nested_tree !! joinpath (joinpath repo "tmp_verify") ("secrets" +:+ "/" +:+ "a.txt")
    = Some (encode "hello world") ∧
  ∃ fs',
    verify_entry (H := stand_in_hashlib) repo default_config sample_passphrase
      (nested_tree, false, [])
      {| entry_path := "secrets" +:+ "/" +:+ "a.txt"; entry_sensitive := true |} =
      (fs',
       (if decide (encode "hello world" = encode "hello world") then false else true),
       [] ++ [if decide (encode "hello world" = encode "hello world")
              then VerifiedRel ("secrets" +:+ "/" +:+ "a.txt")
              else MismatchAfterDecryptFor ("secrets" +:+ "/" +:+ "a.txt")]).
Proof.
  assert (H1 : has_slash "a.txt" = false) by reflexivity.
  assert (H2 : "a.txt" ≠ "") by discriminate.
  assert (H3 : nested_tree !! joinpath repo (("secrets" +:+ "/" +:+ "a.txt") +:+ ".enc")
               = Some sample_package) by (vm_compute; reflexivity).
  assert (H4 : decrypt_data (H := stand_in_hashlib) default_config sample_package
                 sample_passphrase = Some (encode "hello world"))
    by (vm_compute; reflexivity).
  assert (H5 : nested_tree !! joinpath (joinpath repo "tmp_verify")
                                ("secrets" +:+ "/" +:+ "a.txt")
               = Some (encode "hello world")) by (vm_compute; reflexivity).
  split; [exact H1|]. split; [exact H2|]. split; [exact H3|]. split; [exact H4|].
  split; [exact H5|].
  exact (nested_entry_verdict (H := stand_in_hashlib) repo default_config sample_passphrase
           nested_tree false [] "secrets" "a.txt" sample_package (encode "hello world")
           (encode "hello world") H1 H2 H3 H4 H5).
Defined.

Lemma validate_passes_witness :
  marker_well_formed default_config ∧
  should_exclude default_config "docs/notes.txt" = false ∧
  notes_tree !! "docs/notes.txt" = Some (encode "hello world") ∧
  is_encrypted default_config notes_tree "docs/notes.txt" = false ∧
  name "docs/notes.txt" ≠ "" ∧
  encrypt_and_validate_file (H := stand_in_hashlib) default_config notes_tree
    "docs/notes.txt" sample_passphrase (replicate 32 x2a) =
    (ExitStatus 0,
     delete ("docs/notes.txt" +:+ ".orig.tmp") (delete (enc_of "docs/notes.txt") notes_tree)).
Proof.
  assert (H2 : should_exclude default_config "docs/notes.txt" = false)
    by (vm_compute; reflexivity).
  assert (H3 : notes_tree !! "docs/notes.txt" = Some (encode "hello world"))
    by (vm_compute; reflexivity).
  assert (H4 : is_encrypted default_config notes_tree "docs/notes.txt" = false)
    by (vm_compute; reflexivity).
  assert (H5 : name "docs/notes.txt" ≠ "") by discriminate.
  split; [apply default_marker_well_formed|].
  split; [exact H2|]. split; [exact H3|]. split; [exact H4|]. split; [exact H5|].
  exact (validate_passes (H := stand_in_hashlib) default_config notes_tree "docs/notes.txt"
           sample_passphrase (replicate 32 x2a) (encode "hello world")
           default_marker_well_formed H2 H3 H4 H5).
Defined.

Lemma validate_marked_file_witness :
  should_exclude default_config "docs/howto.md" = false ∧
  quoting_tree !! "docs/howto.md"
    = Some (encode "Files start with ARTIFACT_SHIELD_ENCRYPTED once protected.") ∧
  is_encrypted default_config quoting_tree "docs/howto.md" = true ∧
  name "docs/howto.md" ≠ "" ∧
  quoting_tree !! ("docs/howto.md" +:+ ".orig.tmp") = None ∧
  encrypt_and_validate_file (H := stand_in_hashlib) default_config quoting_tree
    "docs/howto.md" sample_passphrase (replicate 32 x2b) =
    match quoting_tree !! enc_of "docs/howto.md" with
    | None => (ExitStatus 1, quoting_tree)
    | Some stale =>
      match decrypt_data (H := stand_in_hashlib) default_config stale sample_passphrase with
      | None => (ExitStatus 1, quoting_tree)
      | Some pt =>
        (ExitStatus
           (if decide (encode "Files start with ARTIFACT_SHIELD_ENCRYPTED once protected."
                       = pt) then 0 else 1),
         delete (enc_of "docs/howto.md") (<["docs/howto.md" := pt]> quoting_tree))
      end
    end.
Proof.
  assert (H1 : should_exclude default_config "docs/howto.md" = false)
    by (vm_compute; reflexivity).
  assert (H2 : quoting_tree !! "docs/howto.md"
               = Some (encode "Files start with ARTIFACT_SHIELD_ENCRYPTED once protected."))
    by (vm_compute; reflexivity).
  assert (H3 : is_encrypted default_config quoting_tree "docs/howto.md" = true)
    by (vm_compute; reflexivity).
  assert (H4 : name "docs/howto.md" ≠ "") by discriminate.
  assert (H5 : quoting_tree !! ("docs/howto.md" +:+ ".orig.tmp") = None)
    by (vm_compute; reflexivity).
  split; [exact H1|]. split; [exact H2|]. split; [exact H3|]. split; [exact H4|].
  split; [exact H5|].
  exact (validate_marked_file (H := stand_in_hashlib) default_config quoting_tree
           "docs/howto.md" sample_passphrase (replicate 32 x2b)
           (encode "Files start with ARTIFACT_SHIELD_ENCRYPTED once protected.")
           H1 H2 H3 H4 H5).
Defined.

Lemma scan_counts_witness :
  let r := scan_and_encrypt_directory (H := stand_in_hashlib) sample_token_bytes
             sample_read_text default_config sample_passphrase None scanned_listing
             scanned_tree in
  ((None : option string) = None ∨ (None : option string) = Some "") ∧
  NoDup scanned_listing ∧
  (∀ p, p ∈ scanned_listing → is_Some (scanned_tree !! p)) ∧
  ((r.1).2 = length (filter (λ p, should_exclude default_config p = false) scanned_listing) ∧
   r.2 = length (filter (λ p, should_exclude default_config p = true) scanned_listing) ∧
   (r.1).2 + r.2 = length scanned_listing).
Proof.
  intros r.
  assert (H1 : (None : option string) = None ∨ (None : option string) = Some "")
    by (left; reflexivity).
  assert (H2 : NoDup scanned_listing).
  { apply (bool_decide_unpack _). vm_compute. exact I. }
  assert (H3 : ∀ p, p ∈ scanned_listing → is_Some (scanned_tree !! p)).
  { intros p Hp%list_elem_of_In. simpl in Hp.
    destruct Hp as [<-|[<-|[<-|[]]]]; eexists; vm_compute; reflexivity. }
  split; [exact H1|]. split; [exact H2|]. split; [exact H3|].
  exact (scan_counts (H := stand_in_hashlib) sample_token_bytes sample_read_text
           default_config sample_passphrase None scanned_listing scanned_tree H1 H2 H3).
Defined.

Lemma scan_frame_witness :
  (∀ p, p ∈ ["docs/notes.txt"; "node_modules/x.js"] → "docs/notes.txt" ≠ enc_of p) ∧
  (delete_original_after_encrypt default_config && negb (dry_run default_config) = false
   ∨ "docs/notes.txt" ∉ ["docs/notes.txt"; "node_modules/x.js"]) ∧
  (scan_and_encrypt_directory (H := stand_in_hashlib) sample_token_bytes sample_read_text
     default_config sample_passphrase None ["docs/notes.txt"; "node_modules/x.js"]
     scanned_tree).1.1 !! "docs/notes.txt"
  = scanned_tree !! "docs/notes.txt".
Proof.
  assert (H1 : ∀ p, p ∈ ["docs/notes.txt"; "node_modules/x.js"] →
                    "docs/notes.txt" ≠ enc_of p).
  { intros p Hp%list_elem_of_In. simpl in Hp.
    destruct Hp as [<-|[<-|[]]]; discriminate. }
  assert (H2 : delete_original_after_encrypt default_config
                 && negb (dry_run default_config) = false
               ∨ "docs/notes.txt" ∉ ["docs/notes.txt"; "node_modules/x.js"])
    by (left; reflexivity).
  split; [exact H1|]. split; [exact H2|].
  exact (scan_frame (H := stand_in_hashlib) sample_token_bytes sample_read_text
           default_config sample_passphrase None ["docs/notes.txt"; "node_modules/x.js"]
           scanned_tree "docs/notes.txt" H1 H2).
Defined.
